(** * Gravitational N-body engine (2D, velocity-Verlet, softened gravity)

    Shallow embedding of the physics core shared by
    [simulacionDosCuerpos2D.py] and [simulacionCuatroCuerpos2D.py]:
    the [Body] class, [accelerations], [step_verlet] and [to_com_frame].
    The two scripts define these four items identically (only comments,
    [TRAIL_LEN] and [WINDOW] differ), so one embedding serves both.

    The code computes with Python floats and numpy float64 arrays.  The
    embedding is written once over an interface [FloatOps] of the arithmetic
    the code uses, and is instantiated twice:
    - [Exact]: the real numbers, i.e. the code read in exact arithmetic;
    - [Binary64]: IEEE-754 binary64 with round-to-nearest-even, the
      arithmetic the interpreter really performs; it evaluates by
      computation.

    Python exceptions are modelled by the [result] monad.  A list of bodies
    is a list of distinct [Body] objects (as every setup function of the
    repository builds it), so in-place mutation of one body is an update of
    one list element. *)

From Stdlib Require Import Reals Lra Lia List String ZArith Bool.
From Stdlib Require Import Floats.SpecFloat.
Import ListNotations.

Set Implicit Arguments.

(** ** Exceptions *)

Inductive exn : Type :=
| ZeroDivisionError
| ValueError
| IndexError
| OverflowError.

Inductive result (A : Type) : Type :=
| Ok (x : A)
| Raise (e : exn).

Arguments Ok {A} x.
Arguments Raise {A} e.

Definition bind {A B : Type} (c : result A) (k : A -> result B) : result B :=
  match c with
  | Ok x => k x
  | Raise e => Raise e
  end.

Notation "x <- c ;; k" := (bind c (fun x => k))
  (at level 61, c at next level, right associativity).

(** A [for] loop over [l] whose body may raise; the loop state is threaded
    from left to right. *)
Fixpoint for_each {S A : Type} (body : S -> A -> result S) (l : list A) (s : S)
  : result S :=
  match l with
  | [] => Ok s
  | x :: l' => s' <- body s x ;; for_each body l' s'
  end.

(** [l[i]] : raises [IndexError] out of range. *)
Definition getitem {A : Type} (l : list A) (i : nat) : result A :=
  match nth_error l i with
  | Some x => Ok x
  | None => Raise IndexError
  end.

Fixpoint update {A : Type} (i : nat) (f : A -> A) (l : list A) : list A :=
  match l, i with
  | [], _ => []
  | x :: l', O => f x :: l'
  | x :: l', S i' => x :: update i' f l'
  end.

(** In-place mutation of the object [l[i]]. *)
Definition modify {A : Type} (l : list A) (i : nat) (f : A -> A)
  : result (list A) :=
  match nth_error l i with
  | Some _ => Ok (update i f l)
  | None => Raise IndexError
  end.

(** ** The arithmetic used by the code *)

Class FloatOps (F : Type) : Type := {
  f_zero : F;                 (* 0.0 *)
  f_half : F;                 (* 0.5 *)
  f_one : F;                  (* 1.0 *)
  f_add : F -> F -> F;
  f_sub : F -> F -> F;
  f_mul : F -> F -> F;
  f_div : F -> F -> F;        (* numpy division: never raises *)
  f_opp : F -> F;             (* unary minus *)
  f_sqrt : F -> F;
  f_is_zero : F -> bool;      (* x == 0.0 *)
  f_is_neg : F -> bool        (* x < 0.0 *)
}.

Declare Scope float_scope.
Delimit Scope float_scope with flt.
Infix "+" := f_add : float_scope.
Infix "-" := f_sub : float_scope.
Infix "*" := f_mul : float_scope.
Infix "/" := f_div : float_scope.

(** numpy arrays of shape (2,) *)
Record vec2 (F : Type) : Type := mkvec { c0 : F; c1 : F }.

Arguments mkvec {F} c0 c1.
Arguments c0 {F} _.
Arguments c1 {F} _.

(** One body: the attributes set by [Body.__init__]. *)
Record Body (F : Type) : Type := mkBody {
  r : vec2 F;                 (* self.r, position *)
  v : vec2 F;                 (* self.v, velocity *)
  m : F;                      (* self.m, mass *)
  color : string;             (* self.color *)
  trail : list (F * F);       (* self.trail *)
  a : vec2 F                  (* self.a, acceleration cache *)
}.

Arguments mkBody {F} r v m color trail a.
Arguments r {F} _.
Arguments v {F} _.
Arguments m {F} _.
Arguments color {F} _.
Arguments trail {F} _.
Arguments a {F} _.

Definition set_r {F} (b : Body F) (x : vec2 F) : Body F :=
  mkBody x (v b) (m b) (color b) (trail b) (a b).
Definition set_v {F} (b : Body F) (x : vec2 F) : Body F :=
  mkBody (r b) x (m b) (color b) (trail b) (a b).
Definition set_a {F} (b : Body F) (x : vec2 F) : Body F :=
  mkBody (r b) (v b) (m b) (color b) (trail b) x.

Section Engine.
Context {F : Type} `{FloatOps F}.
Local Open Scope float_scope.

(** *** Scalar operations that raise *)

(** [math.sqrt(x)]: [ValueError] on a negative argument. *)
Definition math_sqrt (x : F) : result F :=
  if f_is_neg x then Raise ValueError else Ok (f_sqrt x).

(** [x / y] on Python floats: [ZeroDivisionError] on a zero divisor. *)
Definition float_truediv (x y : F) : result F :=
  if f_is_zero y then Raise ZeroDivisionError else Ok (x / y).

(** *** numpy array operations (componentwise, with scalar broadcast) *)

Definition v_zero : vec2 F := mkvec f_zero f_zero.
Definition v_add (p q : vec2 F) : vec2 F := mkvec (c0 p + c0 q) (c1 p + c1 q).
Definition v_sub (p q : vec2 F) : vec2 F := mkvec (c0 p - c0 q) (c1 p - c1 q).
(** scalar * array *)
Definition v_scale (s : F) (p : vec2 F) : vec2 F := mkvec (s * c0 p) (s * c1 p).
(** array * scalar *)
Definition v_muls (p : vec2 F) (s : F) : vec2 F := mkvec (c0 p * s) (c1 p * s).
(** array / scalar *)
Definition v_divs (p : vec2 F) (s : F) : vec2 F := mkvec (c0 p / s) (c1 p / s).
(** - array *)
Definition v_opp (p : vec2 F) : vec2 F := mkvec (f_opp (c0 p)) (f_opp (c1 p)).

(** *** [Body.__init__] *)
Definition Body_init (x y vx vy mass : F) (col : string) : Body F :=
  mkBody (mkvec x y) (mkvec vx vy) mass col [] v_zero.

(** The module constants [G] and [EPS2] are read at every call. *)
Variables (G EPS2 : F).

(** *** [accelerations] *)

(** [b.a[:] = 0.0] *)
Definition reset_a (b : Body F) : Body F := set_a b v_zero.

(** The force vector of one pair: the lines from [dr = rj - ri] to
    [fvec = G * mi * mj * dr * inv_r3]. *)
Definition pair_force (ri rj : vec2 F) (mi mj : F) : result (vec2 F) :=
  let dr := v_sub rj ri in
  let dist2 := c0 dr * c0 dr + c1 dr * c1 dr + EPS2 in
  s <- math_sqrt dist2 ;;
  inv_r <- float_truediv f_one s ;;
  let inv_r3 := inv_r / dist2 in
  Ok (v_muls (v_scale (G * mi * mj) dr) inv_r3).

(** Body of the inner loop, [for j in range(i + 1, N)]. *)
Definition inner_body (i : nat) (ri : vec2 F) (mi : F)
    (bodies : list (Body F)) (j : nat) : result (list (Body F)) :=
  bj <- getitem bodies j ;;
  let rj := r bj in
  let mj := m bj in
  fvec <- pair_force ri rj mi mj ;;
  bodies1 <- modify bodies i (fun b => set_a b (v_add (a b) (v_divs fvec mi))) ;;
  modify bodies1 j (fun b => set_a b (v_sub (a b) (v_divs fvec mj))).

(** Body of the outer loop, [for i in range(N - 1)]. *)
Definition outer_body (N : nat) (bodies : list (Body F)) (i : nat)
  : result (list (Body F)) :=
  bi <- getitem bodies i ;;
  let ri := r bi in
  let mi := m bi in
  for_each (inner_body i ri mi) (seq (i + 1) (N - (i + 1))) bodies.

Definition accelerations (bodies : list (Body F)) : result (list (Body F)) :=
  let bodies0 := map reset_a bodies in
  let N := List.length bodies0 in
  for_each (outer_body N) (seq 0 (N - 1)) bodies0.

(** *** [step_verlet] *)

(** First loop: [v_half = b.v + 0.5 * dt * b.a; b.r += dt * v_half;
    b.v = v_half]. *)
Definition kick_drift (dt : F) (b : Body F) : Body F :=
  let v_half := v_add (v b) (v_scale (f_half * dt) (a b)) in
  set_v (set_r b (v_add (r b) (v_scale dt v_half))) v_half.

(** Second loop: [b.v += 0.5 * dt * b.a]. *)
Definition kick (dt : F) (b : Body F) : Body F :=
  set_v b (v_add (v b) (v_scale (f_half * dt) (a b))).

Definition step_verlet (bodies : list (Body F)) (dt : F)
  : result (list (Body F)) :=
  bodies1 <- accelerations bodies ;;
  let bodies2 := map (kick_drift dt) bodies1 in
  bodies3 <- accelerations bodies2 ;;
  Ok (map (kick dt) bodies3).

(** *** [to_com_frame] *)

(** [sum(b.m for b in bodies)]: starts from 0 and adds from the left. *)
Definition sum_m (bodies : list (Body F)) : F :=
  fold_left (fun s b => s + m b) bodies f_zero.

(** [sum(b.m * b.r for b in bodies)] and the same sum over [b.v]. *)
Definition sum_mr (bodies : list (Body F)) : vec2 F :=
  fold_left (fun s b => v_add s (v_scale (m b) (r b))) bodies v_zero.
Definition sum_mv (bodies : list (Body F)) : vec2 F :=
  fold_left (fun s b => v_add s (v_scale (m b) (v b))) bodies v_zero.

(** [b.r -= r_com; b.v -= v_com] *)
Definition shift (r_com v_com : vec2 F) (b : Body F) : Body F :=
  set_v (set_r b (v_sub (r b) r_com)) (v_sub (v b) v_com).

(** On an empty list both sums are the integer 0 and [0 / 0] raises
    [ZeroDivisionError]; on a non-empty list the quotient is a numpy
    division, which never raises. *)
Definition to_com_frame (bodies : list (Body F)) : result (list (Body F)) :=
  match bodies with
  | [] => Raise ZeroDivisionError
  | _ :: _ =>
      let M := sum_m bodies in
      let r_com := v_divs (sum_mr bodies) M in
      let v_com := v_divs (sum_mv bodies) M in
      Ok (map (shift r_com v_com) bodies)
  end.
End Engine.

Arguments accelerations {F _} G EPS2 bodies.
Arguments step_verlet {F _} G EPS2 bodies dt.
Arguments pair_force {F _} G EPS2 ri rj mi mj.
Arguments inner_body {F _} G EPS2 i ri mi bodies j.
Arguments outer_body {F _} G EPS2 N bodies i.

(** ** Exact arithmetic: the real numbers *)

#[export] Instance Exact : FloatOps R := {|
  f_zero := 0%R;
  f_half := (/ 2)%R;
  f_one := 1%R;
  f_add := Rplus;
  f_sub := Rminus;
  f_mul := Rmult;
  f_div := Rdiv;
  f_opp := Ropp;
  f_sqrt := sqrt;
  f_is_zero := fun x => if Req_dec_T x 0 then true else false;
  f_is_neg := fun x => if Rlt_dec x 0 then true else false
|}.

(** ** IEEE-754 binary64, round to nearest even *)

Definition binary64 : Type := spec_float.

Definition b64_of_Z (z : Z) : binary64 := binary_normalize 53 1024 z 0 false.

#[export] Instance Binary64 : FloatOps binary64 := {|
  f_zero := S754_zero false;
  f_half := SFdiv 53 1024 (b64_of_Z 1) (b64_of_Z 2);
  f_one := b64_of_Z 1;
  f_add := SFadd 53 1024;
  f_sub := SFsub 53 1024;
  f_mul := SFmul 53 1024;
  f_div := SFdiv 53 1024;
  f_opp := SFopp;
  f_sqrt := SFsqrt 53 1024;
  f_is_zero := fun x => SFeqb x (S754_zero false);
  f_is_neg := fun x => SFltb x (S754_zero false)
|}.

(** ** The module constants of both scripts: [G = 1.0], [EPS2 = 1e-3] *)

Definition G_exact : R := 1%R.
Definition EPS2_exact : R := (1 / 1000)%R.

Definition G_b64 : binary64 := b64_of_Z 1.
(** The double nearest to 1/1000, which is what the literal [1e-3] denotes. *)
Definition EPS2_b64 : binary64 := SFdiv 53 1024 (b64_of_Z 1) (b64_of_Z 1000).

(** A two-body system with the masses of the two-body script, 1 and 3, at
    rest at (0, 0) and (5, 0); in binary64 and in exact arithmetic. *)
Definition two_body_b64 : list (Body binary64) :=
  [ Body_init (b64_of_Z 0) (b64_of_Z 0) (b64_of_Z 0) (b64_of_Z 0) (b64_of_Z 1) "tab:orange";
    Body_init (b64_of_Z 5) (b64_of_Z 0) (b64_of_Z 0) (b64_of_Z 0) (b64_of_Z 3) "tab:blue" ].

Definition two_body_exact : list (Body R) :=
  [ Body_init 0%R 0%R 0%R 0%R 1%R "tab:orange";
    Body_init 5%R 0%R 0%R 0%R 3%R "tab:blue" ].

(** Two body lists agree on everything but the acceleration cache. *)
Definition same_but_a {F} `{FloatOps F} (st st' : list (Body F)) : Prop :=
  map reset_a st' = map reset_a st.

(** [acceleration_i * mass_i == -acceleration_j * mass_j], on arrays. *)
Definition antisymmetric {F} `{FloatOps F} (bi bj : Body F) : Prop :=
  v_muls (a bi) (m bi) = v_opp (v_muls (a bj) (m bj)).

(** ** Sequences of engine calls *)

Inductive op (F : Type) : Type :=
| OpAccelerations
| OpStep (dt : F)
| OpToComFrame.

Arguments OpAccelerations {F}.
Arguments OpStep {F} dt.
Arguments OpToComFrame {F}.

Definition run_op {F} `{FloatOps F} (G EPS2 : F) (bodies : list (Body F)) (o : op F)
  : result (list (Body F)) :=
  match o with
  | OpAccelerations => accelerations G EPS2 bodies
  | OpStep dt => step_verlet G EPS2 bodies dt
  | OpToComFrame => to_com_frame bodies
  end.

Definition run {F} `{FloatOps F} (G EPS2 : F) (ops : list (op F)) (bodies : list (Body F))
  : result (list (Body F)) :=
  for_each (run_op G EPS2) ops bodies.

(** The consumer's loop: one [step_verlet] call per entry of [dts]. *)
Definition steps {F} `{FloatOps F} (G EPS2 : F) (dts : list F) (bodies : list (Body F))
  : result (list (Body F)) :=
  for_each (step_verlet G EPS2) dts bodies.

(** ** Mathematical description of the engine, in exact arithmetic *)

Section ExactSpec.
Local Open Scope R_scope.
Variables (G EPS2 : R).

(** Softened squared distance, [|q - p|^2 + EPS2]. *)
Definition dist2 (p q : vec2 R) : R :=
  (c0 q - c0 p) * (c0 q - c0 p) + (c1 q - c1 p) * (c1 q - c1 p) + EPS2.

(** The softened Newtonian force on the body at [ri] from the body at
    [rj], as the specification writes it:
    [G * mi * mj * (rj - ri) / (|rj - ri|^2 + EPS2)^(3/2)]. *)
Definition newton_force (ri rj : vec2 R) (mi mj : R) : vec2 R :=
  let d3 := Rpower (dist2 ri rj) (3 / 2) in
  mkvec (G * mi * mj * (c0 rj - c0 ri) / d3) (G * mi * mj * (c1 rj - c1 ri) / d3).

Fixpoint vsum (l : list (vec2 R)) : vec2 R :=
  match l with
  | [] => v_zero
  | x :: l' => v_add x (vsum l')
  end.

Fixpoint Rsum (l : list R) : R :=
  match l with
  | [] => 0
  | x :: l' => x + Rsum l'
  end.

(** Default element for positional access. *)
Definition body0 : Body R := Body_init 0 0 0 0 0 EmptyString.

(** Acceleration of body [k] due to body [j]. *)
Definition acc_from (bs : list (Body R)) (k j : nat) : vec2 R :=
  let bk := nth k bs body0 in
  let bj := nth j bs body0 in
  v_divs (newton_force (r bk) (r bj) (m bk) (m bj)) (m bk).

(** Net acceleration of body [k]: the sum over all other bodies. *)
Definition net_acc (bs : list (Body R)) (k : nat) : vec2 R :=
  vsum (map (acc_from bs k)
            (filter (fun j => negb (j =? k)) (seq 0 (List.length bs)))).

(** The bodies with the acceleration cache of each replaced by its net
    acceleration; every other attribute is kept. *)
Definition with_net_acc (bs : list (Body R)) : list (Body R) :=
  map (fun k => set_a (nth k bs body0) (net_acc bs k)) (seq 0 (List.length bs)).

(** The pairs in the order the two nested loops visit them. *)
Definition pairs (N : nat) : list (nat * nat) :=
  flat_map (fun i => map (pair i) (seq (i + 1) (N - (i + 1)))) (seq 0 (N - 1)).

(** Effect of one visit of the pair [(i, j)] on the body list. *)
Definition apply_pair (st : list (Body R)) (ij : nat * nat) : list (Body R) :=
  let (i, j) := ij in
  match nth_error st i, nth_error st j with
  | Some bi, Some bj =>
      let f := newton_force (r bi) (r bj) (m bi) (m bj) in
      update j (fun b => set_a b (v_sub (a b) (v_divs f (m bj))))
        (update i (fun b => set_a b (v_add (a b) (v_divs f (m bi)))) st)
  | _, _ => st
  end.

(** What one visit of the pair [(i, j)] adds to the acceleration of
    body [k], with positions and masses read from [bs]. *)
Definition contrib (bs : list (Body R)) (ij : nat * nat) (k : nat) : vec2 R :=
  let (i, j) := ij in
  let bi := nth i bs body0 in
  let bj := nth j bs body0 in
  let f := newton_force (r bi) (r bj) (m bi) (m bj) in
  v_sub (if k =? i then v_divs f (m bi) else v_zero)
        (if k =? j then v_divs f (m bj) else v_zero).
End ExactSpec.

(** Total linear momentum, total mass and mass-weighted position are the
    sums [to_com_frame] itself computes: [sum_mv], [sum_m], [sum_mr]. *)

(** Every mass is non-zero (the data model asks for positive masses; a
    zero mass would make [fvec / mi] a division by zero). *)
Definition nonzero_masses (bs : list (Body R)) : Prop :=
  Forall (fun b => m b <> 0%R) bs.

(** Net force on the system, from the cached accelerations:
    the sum of [m_i * a_i]. *)
Definition force_sum (bs : list (Body R)) : vec2 R :=
  vsum (map (fun b => v_scale (m b) (a b)) bs).

(** The sums of the specification, written out on real numbers: the total
    mass, and [sum mass_i * x_i] for one coordinate [x] of the bodies. *)
Definition total_mass (bs : list (Body R)) : R := Rsum (map m bs).
Definition weighted_sum (x : Body R -> R) (bs : list (Body R)) : R :=
  Rsum (map (fun b => m b * x b)%R bs).

(** ** Scenario construction *)

(** Two more operations on Python floats, used by the scenario set-up
    only: [abs(x)], and [x ** 3], which raises [OverflowError] when the
    cube of a finite [x] is too large for a float. *)
Class PyFloatOps (F : Type) : Type := {
  f_abs : F -> F;
  float_pow3 : F -> result F
}.

(** Over the reals a cube never overflows. *)
#[export] Instance ExactPy : PyFloatOps R := {|
  f_abs := Rabs;
  float_pow3 := fun x => Ok (x ^ 3)%R
|}.

(** [x ** 3] on a binary64 float.  The interpreter returns not-a-number,
    the infinities and the zeros as they are (the exponent is odd, so the
    sign is kept); on a finite non-zero [x] it rounds the cube once, to
    nearest even, and raises [OverflowError] if that is infinite.  A cube
    too small for a float is rounded to a subnormal or to zero without an
    error. *)
Definition b64_pow3 (x : binary64) : result binary64 :=
  match x with
  | S754_finite s mx e =>
      match binary_round_aux 53 1024 s (Zpos (mx * mx * mx)) (3 * e) loc_Exact with
      | S754_infinity _ => Raise OverflowError
      | y => Ok y
      end
  | _ => Ok x
  end.

#[export] Instance Binary64Py : PyFloatOps binary64 := {|
  f_abs := SFabs;
  float_pow3 := b64_pow3
|}.

Section Scenario.
Context {F : Type} `{FloatOps F} `{PyFloatOps F}.
Local Open Scope float_scope.

(** [setup_two_bodies(m1, m2, D)] of the two-body script; [G] is the module
    constant.  The quotients [m2 / M], [m1 / M] and [G * M / (D**3)] are
    divisions of Python floats and raise on a zero divisor; [D**3] raises
    on overflow; [math.sqrt] raises on a negative argument.  The operands
    are evaluated from left to right. *)
Definition setup_two_bodies (G m1 m2 D : F) : result (list (Body F)) :=
  let M := m1 + m2 in
  q1 <- float_truediv m2 M ;;
  let r1x := f_opp D * q1 in
  q2 <- float_truediv m1 M ;;
  let r2x := D * q2 in
  let GM := G * M in
  d3 <- float_pow3 D ;;
  w2 <- float_truediv GM d3 ;;
  omega <- math_sqrt w2 ;;
  let v1y := omega * f_abs r1x in
  let v2y := f_opp omega * f_abs r2x in
  let b1 := Body_init r1x f_zero f_zero v1y m1 "tab:orange" in
  let b2 := Body_init r2x f_zero f_zero v2y m2 "tab:blue" in
  Ok [b1; b2].
End Scenario.

(** [setup_four_bodies()] of the four-body script, the decimal literals
    read as the rationals they denote. *)
Definition setup_four_bodies : list (Body R) :=
  let m1 := 1%R in
  let m2 := 2%R in
  let m3 := 3%R in
  let m4 := (6 / 10)%R in
  let b1 := Body_init (- 3)%R (24 / 10)%R (- (8 / 10))%R 0%R m1 "tab:red" in
  let b2 := Body_init 0%R 0%R 0%R 0%R m2 "tab:gray" in
  let b3 := Body_init (34 / 10)%R (28 / 10)%R (8 / 10)%R 0%R m3 "tab:blue" in
  let b4 := Body_init (12 / 10)%R (- (32 / 10))%R (6 / 10)%R (35 / 100)%R m4 "tab:green" in
  [b1; b2; b3; b4].

(** The same scenario in binary64: a decimal literal is the double nearest
    to it, which is the correctly rounded quotient of its numerator and
    denominator. *)
Definition b64_dec (num den : Z) : binary64 :=
  SFdiv 53 1024 (b64_of_Z num) (b64_of_Z den).

(** The literals [1e200] and [1e-110]: the doubles nearest to [10^200] and
    to [1 / 10^110], each rounded once from the exact integers. *)
Definition b64_1e200 : binary64 := b64_of_Z (10 ^ 200).
Definition b64_1e_110 : binary64 :=
  SFdiv 53 1024 (S754_finite false 1 0) (S754_finite false (10 ^ 110)%positive 0).


Definition setup_four_bodies_b64 : list (Body binary64) :=
  let m1 := b64_of_Z 1 in
  let m2 := b64_of_Z 2 in
  let m3 := b64_of_Z 3 in
  let m4 := b64_dec 6 10 in
  let z := b64_of_Z 0 in
  let b1 := Body_init (b64_of_Z (-3)) (b64_dec 24 10) (b64_dec (-8) 10) z m1 "tab:red" in
  let b2 := Body_init z z z z m2 "tab:gray" in
  let b3 := Body_init (b64_dec 34 10) (b64_dec 28 10) (b64_dec 8 10) z m3 "tab:blue" in
  let b4 := Body_init (b64_dec 12 10) (b64_dec (-32) 10) (b64_dec 6 10) (b64_dec 35 100) m4
              "tab:green" in
  [b1; b2; b3; b4].

(** ** The animation callback *)

Definition set_trail {F} (b : Body F) (t : list (F * F)) : Body F :=
  mkBody (r b) (v b) (m b) (color b) t (a b).

(** [d.append(x)] on a [deque(maxlen=maxlen)]: the item is added on the
    right, and the leftmost item is dropped when the length then exceeds
    [maxlen]. *)
Definition deque_append {A : Type} (maxlen : nat) (d : list A) (x : A) : list A :=
  let d' := d ++ [x] in
  if (maxlen <? List.length d')%nat then tl d' else d'.

Module Anim.

(** What [update] reads and writes: the bodies and, for each body, the
    data last set on its scatter artist ([set_offsets]) and on its line
    artist ([set_data]).  The axes title and the returned artist list are
    left out. *)
Record Scene (F : Type) : Type := mkScene {
  bodies : list (Body F);
  scatters : list (F * F);
  lines : list (list F * list F)
}.

Arguments mkScene {F} bodies scatters lines.
Arguments bodies {F} _.
Arguments scatters {F} _.
Arguments lines {F} _.

(** The module-level lists [scatters] and [lines]: one scatter at each
    body's position, one empty line per body. *)
Definition init_scene {F} (bs : list (Body F)) : Scene F :=
  mkScene bs (map (fun b => (c0 (r b), c1 (r b))) bs) (map (fun _ => ([], [])) bs).

Section Animation.
Context {F : Type} `{FloatOps F}.
Variables (G EPS2 DT : F) (SUBSTEPS TRAIL_LEN : nat).

(** Body of [for idx, b in enumerate(bodies)]. *)
Definition draw_body (w : Scene F) (idx : nat) : result (Scene F) :=
  b <- getitem (bodies w) idx ;;
  let p := (c0 (r b), c1 (r b)) in
  let t := deque_append TRAIL_LEN (trail b) p in
  bodies1 <- modify (bodies w) idx (fun b0 => set_trail b0 t) ;;
  scatters1 <- modify (scatters w) idx (fun _ => p) ;;
  lines1 <- (if (2 <=? List.length t)%nat
             then modify (lines w) idx (fun _ => split t)
             else Ok (lines w)) ;;
  Ok (mkScene bodies1 scatters1 lines1).

(** [update(frame)]; the argument [frame] is not used. *)
Definition update (w : Scene F) : result (Scene F) :=
  bodies1 <- for_each (fun bs (_ : nat) => step_verlet G EPS2 bs DT)
               (seq 0 SUBSTEPS) (bodies w) ;;
  for_each draw_body (seq 0 (List.length bodies1))
    (mkScene bodies1 (scatters w) (lines w)).

(** [n] successive frames. *)
Definition frames (n : nat) (w : Scene F) : result (Scene F) :=
  for_each (fun s (_ : nat) => update s) (seq 0 n) w.
End Animation.

Arguments draw_body {F} TRAIL_LEN w idx.
Arguments update {F _} G EPS2 DT SUBSTEPS TRAIL_LEN w.
Arguments frames {F _} G EPS2 DT SUBSTEPS TRAIL_LEN n w.

End Anim.

(** Two body lists agree on the attributes the engine never writes. *)
Definition same_labels {F} (bs bs' : list (Body F)) : Prop :=
  map (fun b => (m b, color b, trail b)) bs' = map (fun b => (m b, color b, trail b)) bs.

(** No trail holds more than [TRAIL_LEN] points (a [deque] never exceeds
    its [maxlen]). *)
Definition trail_bounded {F} (TRAIL_LEN : nat) (bs : list (Body F)) : Prop :=
  Forall (fun b => List.length (trail b) <= TRAIL_LEN)%nat bs.

(** The point [(b.r[0], b.r[1])] that [update] records and plots. *)
Definition pos {F} (b : Body F) : F * F := (c0 (r b), c1 (r b)).

(** A body after [update] has appended its position to its trail. *)
Definition recorded {F} (TRAIL_LEN : nat) (b : Body F) : Body F :=
  set_trail b (deque_append TRAIL_LEN (trail b) (pos b)).

(** The data of a body's line after [update]: the unzipped trail when the
    trail has at least two points, else what it was. *)
Definition line_shown {F} (b' : Body F) (old : list F * list F) : list F * list F :=
  if (2 <=? List.length (trail b'))%nat then split (trail b') else old.

(** One scatter and one line per body. *)
Definition scene_ok {F} (w : Anim.Scene F) : Prop :=
  List.length (Anim.scatters w) = List.length (Anim.bodies w) /\
  List.length (Anim.lines w) = List.length (Anim.bodies w).

(** The module constants of the animation: [DT = 0.01], [SUBSTEPS = 5],
    [TRAIL_LEN = 2000] (two bodies) and [2400] (four bodies). *)
Definition DT_exact : R := (1 / 100)%R.
Definition DT_b64 : binary64 := b64_dec 1 100.
Definition SUBSTEPS_src : nat := 5.
Definition TRAIL_LEN_two : nat := 2000.
Definition TRAIL_LEN_four : nat := 2400.

(** ** Further quantities of the exact description *)

(** 2D cross product. *)
Definition cross (p q : vec2 R) : R := (c0 p * c1 q - c1 p * c0 q)%R.

(** Total angular momentum about the origin, [sum m_i * (r_i x v_i)]. *)
Definition angular_momentum (bs : list (Body R)) : R :=
  Rsum (map (fun b => (m b * cross (r b) (v b))%R) bs).

(** Net torque of the cached accelerations, [sum m_i * (r_i x a_i)]. *)
Definition torque_sum (bs : list (Body R)) : R :=
  Rsum (map (fun b => (m b * cross (r b) (a b))%R) bs).

(** ** List updates *)

Lemma length_update {A : Type} (i : nat) (f : A -> A) (l : list A) :
  List.length (update i f l) = List.length l.
Proof.
  revert i; induction l as [|x l IH]; intros [|i]; simpl; auto.
Qed.

Lemma nth_error_update_neq {A : Type} (i k : nat) (f : A -> A) (l : list A) :
  i <> k -> nth_error (update i f l) k = nth_error l k.
Proof.
  revert i k; induction l as [|y l IH]; intros [|i] [|k] Hne; simpl;
    try reflexivity; try contradiction.
  apply IH; lia.
Qed.

Lemma map_update_inv {A B : Type} (g : A -> B) (i : nat) (f : A -> A) (l : list A) :
  (forall x, g (f x) = g x) -> map g (update i f l) = map g l.
Proof.
  intros Hg; revert i; induction l as [|y l IH]; intros [|i]; simpl; auto.
  - now rewrite Hg.
  - now rewrite IH.
Qed.

(** ** The error monad *)

Lemma bind_Ok_inv {A B : Type} (c : result A) (k : A -> result B) (y : B) :
  (x <- c ;; k x) = Ok y -> exists x, c = Ok x /\ k x = Ok y.
Proof.
  destruct c as [x|e]; simpl; [eauto | discriminate].
Qed.

Lemma for_each_invariant {S A : Type} (P : S -> Prop) (body : S -> A -> result S) :
  (forall s x s', P s -> body s x = Ok s' -> P s') ->
  forall l s s', P s -> for_each body l s = Ok s' -> P s'.
Proof.
  intros Hbody l; induction l as [|x l IH]; simpl; intros s s' Hs Hrun.
  - now injection Hrun as <-.
  - apply bind_Ok_inv in Hrun as (s1 & H1 & H2); eauto.
Qed.

Lemma modify_Ok_inv {A : Type} (l : list A) (i : nat) (f : A -> A) (l' : list A) :
  modify l i f = Ok l' -> l' = update i f l.
Proof.
  unfold modify; destruct (nth_error l i); [intros [= <-]; reflexivity | discriminate].
Qed.

(** ** Frame conditions, in any arithmetic *)

Section Frame.
Context {F : Type} `{FloatOps F}.
Variables (G EPS2 : F).

Lemma same_but_a_refl (st : list (Body F)) : same_but_a st st.
Proof. reflexivity. Qed.

Lemma same_but_a_trans (s1 s2 s3 : list (Body F)) :
  same_but_a s1 s2 -> same_but_a s2 s3 -> same_but_a s1 s3.
Proof. unfold same_but_a; congruence. Qed.

Lemma same_but_a_m (st st' : list (Body F)) :
  same_but_a st st' -> map m st' = map m st.
Proof.
  unfold same_but_a; intros E.
  assert (Hm : forall l : list (Body F), map m l = map m (map reset_a l)).
  { intros l; rewrite map_map; apply map_ext; intros []; reflexivity. }
  rewrite (Hm st), (Hm st'); now rewrite E.
Qed.

Lemma same_but_a_update (st : list (Body F)) (i : nat) (x : Body F -> vec2 F) :
  same_but_a st (update i (fun b => set_a b (x b)) st).
Proof. unfold same_but_a; apply map_update_inv; intros []; reflexivity. Qed.

Lemma inner_body_frame i ri mi st j st' :
  inner_body G EPS2 i ri mi st j = Ok st' -> same_but_a st st'.
Proof.
  unfold inner_body; intros Hrun.
  apply bind_Ok_inv in Hrun as (bj & _ & Hrun).
  apply bind_Ok_inv in Hrun as (fvec & _ & Hrun).
  apply bind_Ok_inv in Hrun as (st1 & H1 & H2).
  apply modify_Ok_inv in H1, H2; subst.
  eapply same_but_a_trans; apply same_but_a_update.
Qed.

Lemma outer_body_frame N st i st' :
  outer_body G EPS2 N st i = Ok st' -> same_but_a st st'.
Proof.
  unfold outer_body; intros Hrun.
  apply bind_Ok_inv in Hrun as (bi & _ & Hrun).
  revert Hrun; apply for_each_invariant with (P := same_but_a st).
  - intros s j s' Hs Hj; eapply same_but_a_trans; eauto using inner_body_frame.
  - apply same_but_a_refl.
Qed.

Lemma accelerations_frame bs st :
  accelerations G EPS2 bs = Ok st -> same_but_a bs st.
Proof.
  unfold accelerations; intros Hrun.
  apply for_each_invariant with (P := same_but_a bs) in Hrun; auto.
  - intros s j s' Hs Hj; eapply same_but_a_trans; eauto using outer_body_frame.
  - unfold same_but_a; rewrite map_map; apply map_ext; intros []; reflexivity.
Qed.

Lemma accelerations_m bs st :
  accelerations G EPS2 bs = Ok st -> map m st = map m bs.
Proof. intros Hrun; apply same_but_a_m, accelerations_frame, Hrun. Qed.

Lemma step_verlet_m bs dt st :
  step_verlet G EPS2 bs dt = Ok st -> map m st = map m bs.
Proof.
  unfold step_verlet; intros Hrun.
  apply bind_Ok_inv in Hrun as (s1 & H1 & Hrun).
  apply bind_Ok_inv in Hrun as (s3 & H3 & Hrun).
  injection Hrun as <-.
  apply accelerations_m in H1, H3.
  assert (Hk : forall f : Body F -> Body F, (forall b, m (f b) = m b) ->
               forall l, map m (map f l) = map m l).
  { intros f Hf l; rewrite map_map; apply map_ext, Hf. }
  rewrite Hk by reflexivity.
  rewrite H3, Hk by reflexivity.
  exact H1.
Qed.

Lemma to_com_frame_m bs st :
  to_com_frame bs = Ok st -> map m st = map m bs.
Proof.
  destruct bs as [|b bs]; simpl; [discriminate|].
  intros [= <-]; simpl; f_equal; rewrite map_map; reflexivity.
Qed.

Lemma run_op_m bs o st :
  run_op G EPS2 bs o = Ok st -> map m st = map m bs.
Proof.
  destruct o; simpl; eauto using accelerations_m, step_verlet_m, to_com_frame_m.
Qed.

Lemma sum_m_map_m (bs bs' : list (Body F)) :
  map m bs' = map m bs -> sum_m bs' = sum_m bs.
Proof.
  unfold sum_m; generalize f_zero.
  revert bs'; induction bs as [|b bs IH]; intros [|b' bs'] z E; simpl in *;
    try discriminate; auto.
  injection E as Eb E; rewrite Eb; apply IH, E.
Qed.
End Frame.

(** ** Exact arithmetic: the scalar operations *)

Local Open Scope R_scope.

Ltac exact_ops :=
  unfold v_zero, v_add, v_sub, v_scale, v_muls, v_divs, v_opp,
         set_r, set_v, set_a, reset_a in *;
  cbn [f_zero f_half f_one f_add f_sub f_mul f_div f_opp f_sqrt f_is_zero f_is_neg Exact
       v_zero v_add v_sub v_scale v_muls v_divs v_opp c0 c1
       r v m a color trail set_r set_v set_a reset_a] in *.

Lemma vec2_ext (x y : vec2 R) : c0 x = c0 y -> c1 x = c1 y -> x = y.
Proof. destruct x, y; simpl; intros -> ->; reflexivity. Qed.

Ltac vec_eq :=
  apply vec2_ext; exact_ops; try lra; try ring; try (field; assumption).

Lemma math_sqrt_exact (x : R) : 0 <= x -> math_sqrt x = Ok (sqrt x).
Proof.
  intros Hx; unfold math_sqrt; exact_ops.
  destruct (Rlt_dec x 0); [lra | reflexivity].
Qed.

Lemma float_truediv_exact (x y : R) : y <> 0 -> float_truediv x y = Ok (x / y).
Proof.
  intros Hy; unfold float_truediv; exact_ops.
  destruct (Req_dec_T y 0); [contradiction | reflexivity].
Qed.

Lemma dist2_pos (EPS2 : R) (p q : vec2 R) : 0 < EPS2 -> 0 < dist2 EPS2 p q.
Proof.
  intros He; unfold dist2.
  pose proof (Rle_0_sqr (c0 q - c0 p)) as H0.
  pose proof (Rle_0_sqr (c1 q - c1 p)) as H1.
  unfold Rsqr in *; lra.
Qed.

Lemma dist2_sym (EPS2 : R) (p q : vec2 R) : dist2 EPS2 q p = dist2 EPS2 p q.
Proof. unfold dist2; ring. Qed.

Lemma Rpower_three_halves (x : R) : 0 < x -> Rpower x (3 / 2) = x * sqrt x.
Proof.
  intros Hx.
  replace (3 / 2) with (1 + / 2) by lra.
  rewrite Rpower_plus, Rpower_1, Rpower_sqrt by assumption.
  reflexivity.
Qed.

Lemma pair_force_exact (G EPS2 : R) (ri rj : vec2 R) (mi mj : R) :
  0 < EPS2 ->
  pair_force G EPS2 ri rj mi mj = Ok (newton_force G EPS2 ri rj mi mj).
Proof.
  intros He.
  pose proof (dist2_pos ri rj He) as Hd.
  pose proof (sqrt_lt_R0 _ Hd) as Hs.
  unfold pair_force, newton_force.
  exact_ops.
  fold (dist2 EPS2 ri rj).
  rewrite math_sqrt_exact by lra; cbn [bind].
  rewrite float_truediv_exact by lra; cbn [bind].
  rewrite Rpower_three_halves by assumption.
  exact_ops.
  f_equal; f_equal; field; lra.
Qed.

(** ** Exact arithmetic: the loops of [accelerations] *)

Lemma same_but_a_nth {F : Type} `{FloatOps F} (st st' : list (Body F)) (i : nat) (b : Body F) :
  same_but_a st st' -> nth_error st i = Some b ->
  exists b', nth_error st' i = Some b' /\ reset_a b' = reset_a b.
Proof.
  unfold same_but_a; intros E Hb.
  apply (map_nth_error reset_a) in Hb.
  rewrite <- E in Hb.
  rewrite nth_error_map in Hb.
  destruct (nth_error st' i) as [b'|]; simpl in Hb; [|discriminate].
  exists b'; split; [reflexivity | congruence].
Qed.

Lemma same_but_a_length {F : Type} `{FloatOps F} (st st' : list (Body F)) :
  same_but_a st st' -> List.length st' = List.length st.
Proof.
  unfold same_but_a; intros E.
  rewrite <- (length_map reset_a st'), E; apply length_map.
Qed.

Lemma reset_a_eq_rm {F : Type} `{FloatOps F} (b b' : Body F) :
  reset_a b' = reset_a b -> r b' = r b /\ m b' = m b.
Proof.
  destruct b, b'; unfold reset_a, set_a; simpl; intros [= -> -> -> -> ->]; auto.
Qed.

Section ExactLoops.
Variables (G EPS2 : R).
Hypothesis EPS2_pos : 0 < EPS2.

Lemma apply_pair_frame (st : list (Body R)) (p : nat * nat) :
  same_but_a st (apply_pair G EPS2 st p).
Proof.
  destruct p as [i j]; unfold apply_pair.
  destruct (nth_error st i) as [bi|]; [|apply same_but_a_refl].
  destruct (nth_error st j) as [bj|]; [|apply same_but_a_refl].
  eapply same_but_a_trans; apply same_but_a_update.
Qed.

Lemma fold_apply_pair_frame (ps : list (nat * nat)) (st : list (Body R)) :
  same_but_a st (fold_left (apply_pair G EPS2) ps st).
Proof.
  revert st; induction ps as [|p ps IH]; intros st; simpl.
  - apply same_but_a_refl.
  - eapply same_but_a_trans; [apply apply_pair_frame | apply IH].
Qed.

Lemma inner_body_exact (st : list (Body R)) (i j : nat) (bi bj : Body R) :
  i <> j -> nth_error st i = Some bi -> nth_error st j = Some bj ->
  inner_body G EPS2 i (r bi) (m bi) st j = Ok (apply_pair G EPS2 st (i, j)).
Proof.
  intros Hij Hi Hj.
  unfold inner_body, getitem, apply_pair.
  rewrite Hi, Hj; cbn [bind].
  rewrite pair_force_exact by assumption; cbn [bind].
  unfold modify; rewrite Hi; cbn [bind].
  rewrite nth_error_update_neq, Hj by assumption.
  reflexivity.
Qed.

Lemma inner_loop_exact (i : nat) (ri : vec2 R) (mi : R) (js : list nat) :
  forall st : list (Body R),
    (exists bi, nth_error st i = Some bi /\ r bi = ri /\ m bi = mi) ->
    (forall j, In j js -> i < j < List.length st)%nat ->
    for_each (inner_body G EPS2 i ri mi) js st
    = Ok (fold_left (apply_pair G EPS2) (map (pair i) js) st).
Proof.
  induction js as [|j js IH]; intros st (bi & Hi & Hr & Hm) Hjs;
    cbn [for_each map fold_left].
  - reflexivity.
  - assert (Hj : (i < j < List.length st)%nat) by (apply Hjs; now left).
    destruct (nth_error st j) as [bj|] eqn:Ej;
      [|apply nth_error_None in Ej; lia].
    subst ri mi.
    rewrite inner_body_exact with (bi := bi) (bj := bj) by (assumption || lia).
    cbn [bind].
    pose proof (apply_pair_frame st (i, j)) as Hfr.
    apply IH.
    + destruct (same_but_a_nth _ Hfr Hi) as (bi' & Hi' & E).
      apply reset_a_eq_rm in E as [Er Em]; eauto.
    + intros j' Hj'; rewrite (same_but_a_length Hfr).
      apply Hjs; now right.
Qed.

Lemma outer_body_exact (N : nat) (st : list (Body R)) (i : nat) :
  List.length st = N -> (i < N)%nat ->
  outer_body G EPS2 N st i
  = Ok (fold_left (apply_pair G EPS2) (map (pair i) (seq (i + 1) (N - (i + 1)))) st).
Proof.
  intros HN Hi.
  unfold outer_body, getitem.
  destruct (nth_error st i) as [bi|] eqn:Ei;
    [|apply nth_error_None in Ei; lia].
  cbn [bind].
  apply inner_loop_exact; eauto.
  intros j Hj; apply in_seq in Hj; lia.
Qed.

Lemma outer_loop_exact (N : nat) (idx : list nat) :
  forall st : list (Body R),
    List.length st = N -> (forall i, In i idx -> i < N)%nat ->
    for_each (outer_body G EPS2 N) idx st
    = Ok (fold_left (apply_pair G EPS2)
            (flat_map (fun i => map (pair i) (seq (i + 1) (N - (i + 1)))) idx) st).
Proof.
  induction idx as [|i idx IH]; intros st HN His; cbn [for_each flat_map].
  - reflexivity.
  - rewrite outer_body_exact by (auto; apply His; now left).
    cbn [bind].
    rewrite fold_left_app.
    apply IH.
    + rewrite (same_but_a_length (fold_apply_pair_frame _ st)); assumption.
    + intros i' Hi'; apply His; now right.
Qed.

Lemma accelerations_pairs (bs : list (Body R)) :
  accelerations G EPS2 bs
  = Ok (fold_left (apply_pair G EPS2) (pairs (List.length bs)) (map reset_a bs)).
Proof.
  unfold accelerations, pairs; cbv zeta.
  rewrite length_map.
  apply outer_loop_exact.
  - apply length_map.
  - intros i Hi; apply in_seq in Hi; lia.
Qed.
End ExactLoops.

(** ** Exact arithmetic: vector sums *)

Lemma v_add_zero_l (x : vec2 R) : v_add v_zero x = x.
Proof. destruct x; vec_eq. Qed.

Lemma v_add_zero_r (x : vec2 R) : v_add x v_zero = x.
Proof. destruct x; vec_eq. Qed.

Lemma v_add_assoc (x y z : vec2 R) : v_add x (v_add y z) = v_add (v_add x y) z.
Proof. vec_eq. Qed.

Lemma vsum_app (l1 l2 : list (vec2 R)) : vsum (l1 ++ l2) = v_add (vsum l1) (vsum l2).
Proof.
  induction l1 as [|x l1 IH]; simpl.
  - now rewrite v_add_zero_l.
  - now rewrite IH, v_add_assoc.
Qed.

Lemma vsum_map_ext {A : Type} (f g : A -> vec2 R) (l : list A) :
  (forall x, In x l -> f x = g x) -> vsum (map f l) = vsum (map g l).
Proof.
  induction l as [|x l IH]; simpl; intros Hfg; [reflexivity|].
  rewrite Hfg, IH; auto.
Qed.

Lemma vsum_map_zero {A : Type} (f : A -> vec2 R) (l : list A) :
  (forall x, In x l -> f x = v_zero) -> vsum (map f l) = v_zero.
Proof.
  induction l as [|x l IH]; simpl; intros Hf; [reflexivity|].
  rewrite Hf, IH, v_add_zero_l; auto.
Qed.

Lemma vsum_flat_map {A B : Type} (g : B -> vec2 R) (h : A -> list B) (l : list A) :
  vsum (map g (flat_map h l)) = vsum (map (fun x => vsum (map g (h x))) l).
Proof.
  induction l as [|x l IH]; simpl; [reflexivity|].
  now rewrite map_app, vsum_app, IH.
Qed.

(** A sum with a single non-zero term. *)
Lemma vsum_indicator (k : nat) (x : vec2 R) (s n : nat) :
  vsum (map (fun j => if j =? k then x else v_zero) (seq s n))
  = if (s <=? k)%nat && (k <? s + n)%nat then x else v_zero.
Proof.
  revert s; induction n as [|n IH]; intros s; simpl.
  - destruct (s <=? k)%nat eqn:E1; simpl; [|reflexivity].
    destruct (k <? s + 0)%nat eqn:E2; [|reflexivity].
    apply Nat.leb_le in E1; apply Nat.ltb_lt in E2; lia.
  - rewrite IH.
    destruct (s =? k) eqn:Es.
    + apply Nat.eqb_eq in Es; subst s.
      replace (S k <=? k)%nat with false by (symmetry; apply Nat.leb_gt; lia).
      replace (k <=? k)%nat with true by (symmetry; apply Nat.leb_le; lia).
      replace (k <? k + S n)%nat with true by (symmetry; apply Nat.ltb_lt; lia).
      simpl; apply v_add_zero_r.
    + apply Nat.eqb_neq in Es.
      rewrite v_add_zero_l.
      replace (s + S n)%nat with (S s + n)%nat by lia.
      destruct (S s <=? k)%nat eqn:E1.
      * apply Nat.leb_le in E1.
        replace (s <=? k)%nat with true by (symmetry; apply Nat.leb_le; lia).
        reflexivity.
      * apply Nat.leb_gt in E1.
        replace (s <=? k)%nat with false by (symmetry; apply Nat.leb_gt; lia).
        reflexivity.
Qed.

Lemma filter_all {A : Type} (p : A -> bool) (l : list A) :
  (forall x, In x l -> p x = true) -> filter p l = l.
Proof.
  induction l as [|x l IH]; simpl; intros Hp; [reflexivity|].
  rewrite Hp, IH; auto.
Qed.

Lemma seq_split_at (k N : nat) :
  (k < N)%nat -> seq 0 N = seq 0 k ++ k :: seq (k + 1) (N - (k + 1)).
Proof.
  intros Hk.
  replace N with (k + S (N - (k + 1)))%nat at 1 by lia.
  rewrite seq_app; simpl.
  now replace (S k) with (k + 1)%nat by lia.
Qed.

Lemma filter_others (k N : nat) :
  (k < N)%nat ->
  filter (fun j => negb (j =? k)) (seq 0 N) = seq 0 k ++ seq (k + 1) (N - (k + 1)).
Proof.
  intros Hk.
  rewrite (seq_split_at Hk), filter_app; simpl.
  rewrite Nat.eqb_refl; simpl.
  rewrite !filter_all; [reflexivity| |];
    intros j Hj; apply in_seq in Hj;
    apply negb_true_iff, Nat.eqb_neq; lia.
Qed.

Lemma pairs_full_range (N : nat) :
  pairs N = flat_map (fun i => map (pair i) (seq (i + 1) (N - (i + 1)))) (seq 0 N).
Proof.
  unfold pairs.
  destruct N as [|N]; [reflexivity|].
  replace (S N - 1)%nat with N by lia.
  rewrite seq_S, flat_map_app; cbn [flat_map].
  replace (S N - (0 + N + 1))%nat with 0%nat by lia.
  cbn [seq map]; now rewrite !app_nil_r.
Qed.

(** ** Exact arithmetic: from the pair visits to the net acceleration *)

Section ExactClosedForm.
Variables (G EPS2 : R).

Lemma newton_force_antisym (ri rj : vec2 R) (mi mj : R) :
  newton_force G EPS2 rj ri mj mi = v_opp (newton_force G EPS2 ri rj mi mj).
Proof.
  unfold newton_force; rewrite (dist2_sym EPS2 rj ri).
  exact_ops; unfold Rdiv; f_equal; ring.
Qed.

Lemma contrib_first (bs : list (Body R)) (k j : nat) :
  k <> j -> contrib G EPS2 bs (k, j) k = acc_from G EPS2 bs k j.
Proof.
  intros Hkj; unfold contrib, acc_from.
  rewrite Nat.eqb_refl.
  replace (k =? j) with false by (symmetry; apply Nat.eqb_neq; assumption).
  vec_eq.
Qed.

Lemma contrib_second (bs : list (Body R)) (i k : nat) :
  i <> k -> contrib G EPS2 bs (i, k) k = acc_from G EPS2 bs k i.
Proof.
  intros Hik; unfold contrib, acc_from.
  rewrite Nat.eqb_refl.
  replace (k =? i) with false by (symmetry; apply Nat.eqb_neq; lia).
  rewrite (newton_force_antisym (r (nth i bs body0)) (r (nth k bs body0))).
  exact_ops; unfold Rdiv; f_equal; ring.
Qed.

Lemma contrib_other (bs : list (Body R)) (i j k : nat) :
  k <> i -> k <> j -> contrib G EPS2 bs (i, j) k = v_zero.
Proof.
  intros Hi Hj; unfold contrib.
  replace (k =? i) with false by (symmetry; apply Nat.eqb_neq; assumption).
  replace (k =? j) with false by (symmetry; apply Nat.eqb_neq; assumption).
  vec_eq.
Qed.

(** Row [i] of the pair enumeration, seen from body [k]. *)
Lemma row_before (bs : list (Body R)) (N i k : nat) :
  (i < k < N)%nat ->
  vsum (map (fun p => contrib G EPS2 bs p k) (map (pair i) (seq (i + 1) (N - (i + 1)))))
  = acc_from G EPS2 bs k i.
Proof.
  intros Hik; rewrite map_map.
  rewrite vsum_map_ext
    with (g := fun j => if j =? k then acc_from G EPS2 bs k i else v_zero).
  - rewrite vsum_indicator.
    replace (i + 1 <=? k)%nat with true by (symmetry; apply Nat.leb_le; lia).
    replace (k <? i + 1 + (N - (i + 1)))%nat with true
      by (symmetry; apply Nat.ltb_lt; lia).
    reflexivity.
  - intros j Hj; apply in_seq in Hj.
    destruct (j =? k) eqn:Ejk.
    + apply Nat.eqb_eq in Ejk; subst j; apply contrib_second; lia.
    + apply Nat.eqb_neq in Ejk; apply contrib_other; lia.
Qed.

Lemma row_self (bs : list (Body R)) (N k : nat) :
  vsum (map (fun p => contrib G EPS2 bs p k) (map (pair k) (seq (k + 1) (N - (k + 1)))))
  = vsum (map (acc_from G EPS2 bs k) (seq (k + 1) (N - (k + 1)))).
Proof.
  rewrite map_map; apply vsum_map_ext.
  intros j Hj; apply in_seq in Hj; apply contrib_first; lia.
Qed.

Lemma row_after (bs : list (Body R)) (N i k : nat) :
  (k < i)%nat ->
  vsum (map (fun p => contrib G EPS2 bs p k) (map (pair i) (seq (i + 1) (N - (i + 1)))))
  = v_zero.
Proof.
  intros Hki; rewrite map_map; apply vsum_map_zero.
  intros j Hj; apply in_seq in Hj; apply contrib_other; lia.
Qed.

Lemma contrib_sum (bs : list (Body R)) (k : nat) :
  (k < List.length bs)%nat ->
  vsum (map (fun p => contrib G EPS2 bs p k) (pairs (List.length bs)))
  = net_acc G EPS2 bs k.
Proof.
  intros Hk; unfold net_acc.
  rewrite filter_others, map_app, vsum_app by assumption.
  rewrite pairs_full_range, vsum_flat_map.
  rewrite (seq_split_at Hk), map_app, vsum_app.
  cbn [map vsum].
  set (row := fun i : nat =>
    vsum (map (fun p => contrib G EPS2 bs p k)
            (map (pair i) (seq (i + 1) (List.length bs - (i + 1)))))).
  assert (Hbefore : vsum (map row (seq 0 k))
                    = vsum (map (acc_from G EPS2 bs k) (seq 0 k))).
  { apply vsum_map_ext; intros i Hi; apply in_seq in Hi.
    apply row_before; lia. }
  assert (Hafter : vsum (map row (seq (k + 1) (List.length bs - (k + 1)))) = v_zero).
  { apply vsum_map_zero; intros i Hi; apply in_seq in Hi.
    apply row_after; lia. }
  rewrite Hbefore, Hafter, v_add_zero_r.
  unfold row; now rewrite row_self.
Qed.
End ExactClosedForm.

Lemma nth_update {A : Type} (i k : nat) (f : A -> A) (l : list A) (d : A) :
  (k < List.length l)%nat ->
  nth k (update i f l) d = if i =? k then f (nth k l d) else nth k l d.
Proof.
  revert i k; induction l as [|x l IH]; intros i k Hk; simpl in Hk; [lia|].
  destruct i as [|i], k as [|k]; simpl; try reflexivity.
  apply IH; lia.
Qed.

Lemma in_pairs (N i j : nat) : In (i, j) (pairs N) <-> (i < j < N)%nat.
Proof.
  unfold pairs; rewrite in_flat_map; split.
  - intros (i' & Hi' & Hin).
    apply in_map_iff in Hin as (j' & [= -> ->] & Hj').
    apply in_seq in Hi', Hj'; lia.
  - intros Hij; exists i; split.
    + apply in_seq; lia.
    + apply in_map, in_seq; lia.
Qed.

Lemma NoDup_pairs (N : nat) : NoDup (pairs N).
Proof.
  unfold pairs.
  generalize (seq_NoDup (N - 1) 0).
  generalize (seq 0 (N - 1)) as idx.
  induction idx as [|i idx IH]; intros Hnd; simpl; [constructor|].
  inversion Hnd as [|? ? Hni Hnd']; subst.
  apply NoDup_app.
  - apply NoDup_map_NoDup_ForallPairs; [|apply seq_NoDup].
    intros x y _ _ [= ->]; reflexivity.
  - apply IH, Hnd'.
  - intros [i' j'] Hin1 Hin2.
    apply in_map_iff in Hin1 as (j1 & [= <- <-] & _).
    apply in_flat_map in Hin2 as (i2 & Hi2 & Hin2).
    apply in_map_iff in Hin2 as (j2 & [= <- <-] & _).
    contradiction.
Qed.

Section ExactNth.
Variables (G EPS2 : R).

Lemma same_but_a_nth_default (bs st : list (Body R)) (k : nat) :
  same_but_a bs st -> reset_a (nth k st body0) = reset_a (nth k bs body0).
Proof.
  unfold same_but_a; intros E.
  rewrite <- !(map_nth reset_a), E; reflexivity.
Qed.

Lemma set_a_same (b : Body R) (x : vec2 R) : a b = x -> set_a b x = b.
Proof. destruct b; unfold set_a; simpl; now intros ->. Qed.

Lemma apply_pair_nth (bs st : list (Body R)) (i j k : nat) :
  same_but_a bs st ->
  (i <> j)%nat -> (i < List.length bs)%nat -> (j < List.length bs)%nat ->
  (k < List.length bs)%nat ->
  nth k (apply_pair G EPS2 st (i, j)) body0
  = set_a (nth k st body0)
      (v_add (a (nth k st body0)) (contrib G EPS2 bs (i, j) k)).
Proof.
  intros Hfr Hij Hi Hj Hk.
  pose proof (same_but_a_length Hfr) as Hlen.
  unfold apply_pair.
  rewrite (nth_error_nth' st body0) by lia.
  rewrite (nth_error_nth' st body0) by lia.
  rewrite !nth_update by (rewrite ?length_update; lia).
  unfold contrib.
  destruct (reset_a_eq_rm (same_but_a_nth_default i Hfr)) as [-> ->].
  destruct (reset_a_eq_rm (same_but_a_nth_default j Hfr)) as [-> ->].
  rewrite (Nat.eqb_sym k i), (Nat.eqb_sym k j).
  destruct (i =? k) eqn:Eik, (j =? k) eqn:Ejk.
  - apply Nat.eqb_eq in Eik, Ejk; lia.
  - unfold set_a; cbn [r v m color trail a]; f_equal; vec_eq.
  - unfold set_a; cbn [r v m color trail a]; f_equal; vec_eq.
  - symmetry; apply set_a_same; vec_eq.
Qed.

Lemma fold_pairs_nth (bs : list (Body R)) (k : nat) (ps : list (nat * nat)) :
  (k < List.length bs)%nat ->
  (forall i j, In (i, j) ps -> i <> j /\ i < List.length bs /\ j < List.length bs)%nat ->
  forall st, same_but_a bs st ->
    nth k (fold_left (apply_pair G EPS2) ps st) body0
    = set_a (nth k st body0)
        (v_add (a (nth k st body0))
               (vsum (map (fun p => contrib G EPS2 bs p k) ps))).
Proof.
  intros Hk; induction ps as [|[i j] ps IH]; intros Hps st Hfr;
    cbn [fold_left map vsum].
  - symmetry; apply set_a_same; vec_eq.
  - destruct (Hps i j (or_introl eq_refl)) as (Hij & Hi & Hj).
    rewrite IH.
    + rewrite (apply_pair_nth (bs := bs)) by assumption.
      unfold set_a; cbn [r v m color trail a]; f_equal; vec_eq.
    + intros i' j' Hin; apply Hps; now right.
    + eapply same_but_a_trans; [exact Hfr | apply apply_pair_frame].
Qed.

Lemma reset_a_frame (bs : list (Body R)) : same_but_a bs (map reset_a bs).
Proof.
  unfold same_but_a; rewrite map_map; apply map_ext; intros []; reflexivity.
Qed.

Lemma nth_with_net_acc (bs : list (Body R)) (k : nat) :
  (k < List.length bs)%nat ->
  nth k (with_net_acc G EPS2 bs) body0
  = set_a (nth k bs body0) (net_acc G EPS2 bs k).
Proof.
  intros Hk; unfold with_net_acc.
  set (f := fun i : nat => set_a (nth i bs body0) (net_acc G EPS2 bs i)).
  transitivity (nth k (map f (seq 0 (List.length bs))) (f 0%nat)).
  - apply nth_indep; now rewrite length_map, length_seq.
  - rewrite map_nth, seq_nth by assumption; reflexivity.
Qed.

Lemma fold_pairs_closed_form (bs : list (Body R)) :
  fold_left (apply_pair G EPS2) (pairs (List.length bs)) (map reset_a bs)
  = with_net_acc G EPS2 bs.
Proof.
  pose proof (reset_a_frame bs) as Hfr0.
  pose proof (fold_apply_pair_frame G EPS2 (pairs (List.length bs)) (map reset_a bs)) as Hfr.
  apply nth_ext with (d := body0) (d' := body0).
  - rewrite (same_but_a_length Hfr), (same_but_a_length Hfr0).
    unfold with_net_acc; now rewrite length_map, length_seq.
  - rewrite (same_but_a_length Hfr), (same_but_a_length Hfr0); intros k Hk.
    rewrite (fold_pairs_nth (bs := bs)); auto.
    + rewrite contrib_sum, nth_with_net_acc by assumption.
      change body0 with (reset_a body0) at 1 2.
      rewrite (map_nth reset_a).
      unfold reset_a, set_a; cbn [r v m color trail a]; f_equal; vec_eq.
    + intros i j Hin; apply in_pairs in Hin; lia.
Qed.

(** The force evaluator, in closed form. *)
Lemma accelerations_closed_form (bs : list (Body R)) :
  0 < EPS2 -> accelerations G EPS2 bs = Ok (with_net_acc G EPS2 bs).
Proof.
  intros He; rewrite accelerations_pairs by assumption.
  now rewrite fold_pairs_closed_form.
Qed.
End ExactNth.

(** ** Exact arithmetic: the sums of [to_com_frame] *)

Lemma sum_m_Rsum (bs : list (Body R)) : sum_m bs = Rsum (map m bs).
Proof.
  unfold sum_m; exact_ops.
  enough (Hgen : forall z, fold_left (fun s b => s + m b) bs z = z + Rsum (map m bs))
    by (rewrite Hgen; lra).
  induction bs as [|b bs IH]; intros z; simpl.
  - lra.
  - rewrite IH; lra.
Qed.

Lemma fold_add_vsum {A : Type} (h : A -> vec2 R) (l : list A) (z : vec2 R) :
  fold_left (fun s x => v_add s (h x)) l z = v_add z (vsum (map h l)).
Proof.
  revert z; induction l as [|x l IH]; intros z; simpl.
  - now rewrite v_add_zero_r.
  - now rewrite IH, v_add_assoc.
Qed.

Lemma sum_mr_vsum (bs : list (Body R)) :
  sum_mr bs = vsum (map (fun b => v_scale (m b) (r b)) bs).
Proof. unfold sum_mr; now rewrite fold_add_vsum, v_add_zero_l. Qed.

Lemma sum_mv_vsum (bs : list (Body R)) :
  sum_mv bs = vsum (map (fun b => v_scale (m b) (v b)) bs).
Proof. unfold sum_mv; now rewrite fold_add_vsum, v_add_zero_l. Qed.

(** Mass-weighted sum of shifted vectors. *)
Lemma vsum_shifted {A : Type} (w : A -> R) (x : A -> vec2 R) (c : vec2 R) (l : list A) :
  vsum (map (fun b => v_scale (w b) (v_sub (x b) c)) l)
  = v_sub (vsum (map (fun b => v_scale (w b) (x b)) l)) (v_scale (Rsum (map w l)) c).
Proof.
  induction l as [|b l IH]; simpl.
  - vec_eq.
  - rewrite IH; vec_eq.
Qed.

Lemma sum_mr_shift (rc vc : vec2 R) (bs : list (Body R)) :
  sum_mr (map (shift rc vc) bs) = v_sub (sum_mr bs) (v_scale (sum_m bs) rc).
Proof.
  rewrite !sum_mr_vsum, sum_m_Rsum, map_map.
  apply (vsum_shifted m r rc bs).
Qed.

Lemma sum_mv_shift (rc vc : vec2 R) (bs : list (Body R)) :
  sum_mv (map (shift rc vc) bs) = v_sub (sum_mv bs) (v_scale (sum_m bs) vc).
Proof.
  rewrite !sum_mv_vsum, sum_m_Rsum, map_map.
  apply (vsum_shifted m v vc bs).
Qed.

Lemma com_cancel (s : vec2 R) (M : R) :
  M <> 0 -> v_sub s (v_scale M (v_divs s M)) = v_zero.
Proof. intros HM; vec_eq. Qed.

Lemma to_com_frame_exact (bs : list (Body R)) :
  bs <> [] ->
  to_com_frame bs
  = Ok (map (shift (v_divs (sum_mr bs) (sum_m bs)) (v_divs (sum_mv bs) (sum_m bs))) bs).
Proof. destruct bs; [contradiction | reflexivity]. Qed.

Lemma shift_zero (b : Body R) : shift v_zero v_zero b = b.
Proof.
  destruct b as [[r0 r1] [w0 w1] mass col tr acc].
  unfold shift, set_r, set_v; cbn [r v m color trail a].
  f_equal; vec_eq.
Qed.

Lemma to_com_frame_sums (bs : list (Body R)) :
  bs <> [] -> sum_m bs <> 0 ->
  exists bs', to_com_frame bs = Ok bs' /\ sum_mr bs' = v_zero /\ sum_mv bs' = v_zero.
Proof.
  intros Hne HM; eexists; split; [apply to_com_frame_exact, Hne|].
  rewrite sum_mr_shift, sum_mv_shift.
  split; apply com_cancel; exact HM.
Qed.

Lemma vsum_components (l : list (vec2 R)) :
  vsum l = mkvec (Rsum (map c0 l)) (Rsum (map c1 l)).
Proof.
  induction l as [|x l IH]; [reflexivity|].
  cbn [vsum map Rsum]; rewrite IH; apply vec2_ext; exact_ops; reflexivity.
Qed.

Lemma sum_mr_weighted (bs : list (Body R)) :
  sum_mr bs
  = mkvec (weighted_sum (fun b => c0 (r b)) bs) (weighted_sum (fun b => c1 (r b)) bs).
Proof.
  rewrite sum_mr_vsum, vsum_components, !map_map; reflexivity.
Qed.

Lemma sum_mv_weighted (bs : list (Body R)) :
  sum_mv bs
  = mkvec (weighted_sum (fun b => c0 (v b)) bs) (weighted_sum (fun b => c1 (v b)) bs).
Proof.
  rewrite sum_mv_vsum, vsum_components, !map_map; reflexivity.
Qed.

(** C3: for a non-empty system of positive total mass [to_com_frame]
    returns the same bodies, in the same order and with the same masses,
    each position moved by the one vector [r_com = (sum m_i r_i) / M] and
    each velocity by the one vector [v_com = (sum m_i v_i) / M]; after
    that the mass-weighted position and velocity sums vanish. *)
Theorem com_frame_centres (bs : list (Body R)) :
  bs <> [] -> 0 < sum_m bs ->
  exists bs',
    to_com_frame bs = Ok bs' /\
    bs' = map (shift (v_divs (sum_mr bs) (sum_m bs)) (v_divs (sum_mv bs) (sum_m bs))) bs /\
    List.length bs' = List.length bs /\
    map m bs' = map m bs /\ map color bs' = map color bs /\
    map trail bs' = map trail bs /\ map a bs' = map a bs /\
    (forall k, (k < List.length bs)%nat ->
       c0 (r (nth k bs' body0))
       = c0 (r (nth k bs body0)) - weighted_sum (fun b => c0 (r b)) bs / total_mass bs /\
       c1 (r (nth k bs' body0))
       = c1 (r (nth k bs body0)) - weighted_sum (fun b => c1 (r b)) bs / total_mass bs /\
       c0 (v (nth k bs' body0))
       = c0 (v (nth k bs body0)) - weighted_sum (fun b => c0 (v b)) bs / total_mass bs /\
       c1 (v (nth k bs' body0))
       = c1 (v (nth k bs body0)) - weighted_sum (fun b => c1 (v b)) bs / total_mass bs) /\
    sum_mr bs' = v_zero /\ sum_mv bs' = v_zero /\
    weighted_sum (fun b => c0 (r b)) bs' = 0 /\ weighted_sum (fun b => c1 (r b)) bs' = 0 /\
    weighted_sum (fun b => c0 (v b)) bs' = 0 /\ weighted_sum (fun b => c1 (v b)) bs' = 0.
Proof.
  intros Hne HM.
  assert (HM0 : sum_m bs <> 0) by lra.
  destruct (to_com_frame_sums Hne HM0) as (bs' & Hrun & Hr & Hv).
  exists bs'; split; [exact Hrun|].
  rewrite to_com_frame_exact in Hrun by assumption.
  injection Hrun as Hbs; symmetry in Hbs.
  split; [exact Hbs|].
  split; [rewrite Hbs; apply length_map|].
  split; [rewrite Hbs, map_map; reflexivity|].
  split; [rewrite Hbs, map_map; reflexivity|].
  split; [rewrite Hbs, map_map; reflexivity|].
  split; [rewrite Hbs, map_map; reflexivity|].
  split.
  { intros k Hlt.
    set (rc := v_divs (sum_mr bs) (sum_m bs)) in *.
    set (vc := v_divs (sum_mv bs) (sum_m bs)) in *.
    assert (Hn : nth k bs' body0 = shift rc vc (nth k bs body0)).
    { rewrite Hbs.
      rewrite nth_indep with (d' := shift rc vc body0) by (now rewrite length_map).
      apply map_nth. }
    rewrite Hn; unfold rc, vc, total_mass.
    rewrite sum_mr_weighted, sum_mv_weighted, <- sum_m_Rsum.
    unfold shift; exact_ops; repeat split; reflexivity. }
  split; [exact Hr|]; split; [exact Hv|].
  rewrite sum_mr_weighted in Hr; rewrite sum_mv_weighted in Hv.
  injection Hr as Hr0 Hr1; injection Hv as Hv0 Hv1.
  repeat split; assumption.
Qed.

(** C6: a second [to_com_frame] right after the first computes
    [r_com = v_com = 0] and returns the state unchanged. *)
Theorem com_frame_idempotent (bs : list (Body R)) :
  bs <> [] -> 0 < sum_m bs ->
  exists bs',
    to_com_frame bs = Ok bs' /\
    v_divs (sum_mr bs') (sum_m bs') = v_zero /\
    v_divs (sum_mv bs') (sum_m bs') = v_zero /\
    to_com_frame bs' = Ok bs'.
Proof.
  intros Hne HM.
  assert (HM0 : sum_m bs <> 0) by lra.
  destruct (to_com_frame_sums Hne HM0) as (bs' & Hrun & Hr & Hv).
  exists bs'; split; [exact Hrun|].
  assert (Hz : forall M : R, v_divs (v_zero : vec2 R) M = v_zero)
    by (intros M; apply vec2_ext; exact_ops; unfold Rdiv; ring).
  rewrite Hr, Hv, !Hz; repeat split.
  assert (Hne' : bs' <> []).
  { rewrite to_com_frame_exact in Hrun by assumption.
    injection Hrun as <-; destruct bs; [contradiction | discriminate]. }
  rewrite to_com_frame_exact, Hr, Hv, !Hz by assumption.
  f_equal; rewrite <- (map_id bs') at 2.
  apply map_ext, shift_zero.
Qed.

(** ** Exact arithmetic: translation invariance *)

Lemma nth_map_lt {A B : Type} (f : A -> B) (l : list A) (k : nat) (d : A) (d' : B) :
  (k < List.length l)%nat -> nth k (map f l) d' = f (nth k l d).
Proof.
  intros Hk.
  rewrite nth_indep with (d' := f d) by (now rewrite length_map).
  apply map_nth.
Qed.

Lemma dist2_shift (EPS2 : R) (p q c : vec2 R) :
  dist2 EPS2 (v_sub p c) (v_sub q c) = dist2 EPS2 p q.
Proof. unfold dist2; exact_ops; ring. Qed.

Lemma newton_force_shift (G EPS2 : R) (p q c : vec2 R) (mi mj : R) :
  newton_force G EPS2 (v_sub p c) (v_sub q c) mi mj = newton_force G EPS2 p q mi mj.
Proof.
  unfold newton_force; rewrite dist2_shift.
  apply vec2_ext; exact_ops; unfold Rdiv; ring.
Qed.

Lemma net_acc_shift (G EPS2 : R) (rc vc : vec2 R) (bs : list (Body R)) (k : nat) :
  (k < List.length bs)%nat ->
  net_acc G EPS2 (map (shift rc vc) bs) k = net_acc G EPS2 bs k.
Proof.
  intros Hk; unfold net_acc; rewrite length_map.
  apply vsum_map_ext; intros j Hj.
  apply filter_In in Hj as [Hj _]; apply in_seq in Hj.
  unfold acc_from.
  rewrite !nth_map_lt with (d := body0) by lia.
  unfold shift, set_r, set_v; cbn [r v m color trail a].
  now rewrite newton_force_shift.
Qed.

Lemma map_a_with_net_acc (G EPS2 : R) (bs : list (Body R)) :
  map a (with_net_acc G EPS2 bs) = map (net_acc G EPS2 bs) (seq 0 (List.length bs)).
Proof. unfold with_net_acc; rewrite map_map; apply map_ext; reflexivity. Qed.

(** C10: [to_com_frame] subtracts one vector from every position and one
    from every velocity, so pairwise differences and the accelerations the
    force evaluator computes are unchanged. *)
Theorem com_frame_preserves_differences (G EPS2 : R) (bs : list (Body R)) :
  bs <> [] -> 0 < sum_m bs -> 0 < EPS2 ->
  exists (bs' : list (Body R)) (r_com v_com : vec2 R),
    to_com_frame bs = Ok bs' /\
    List.length bs' = List.length bs /\
    (forall k, (k < List.length bs)%nat ->
       r (nth k bs' body0) = v_sub (r (nth k bs body0)) r_com /\
       v (nth k bs' body0) = v_sub (v (nth k bs body0)) v_com) /\
    (forall i j, (i < List.length bs)%nat -> (j < List.length bs)%nat ->
       v_sub (r (nth j bs' body0)) (r (nth i bs' body0))
       = v_sub (r (nth j bs body0)) (r (nth i bs body0)) /\
       v_sub (v (nth j bs' body0)) (v (nth i bs' body0))
       = v_sub (v (nth j bs body0)) (v (nth i bs body0))) /\
    exists st st',
      accelerations G EPS2 bs = Ok st /\
      accelerations G EPS2 bs' = Ok st' /\
      map a st' = map a st.
Proof.
  intros Hne HM He.
  set (rc := v_divs (sum_mr bs) (sum_m bs)).
  set (vc := v_divs (sum_mv bs) (sum_m bs)).
  exists (map (shift rc vc) bs), rc, vc.
  assert (Hnth : forall k, (k < List.length bs)%nat ->
            nth k (map (shift rc vc) bs) body0 = shift rc vc (nth k bs body0))
    by (intros k Hk; now apply nth_map_lt).
  split; [apply to_com_frame_exact, Hne|].
  split; [apply length_map|].
  split; [|split].
  - intros k Hk; rewrite Hnth by assumption; split; reflexivity.
  - intros i j Hi Hj; rewrite !Hnth by assumption.
    unfold shift, set_r, set_v; cbn [r v m color trail a].
    split; vec_eq.
  - exists (with_net_acc G EPS2 bs), (with_net_acc G EPS2 (map (shift rc vc) bs)).
    rewrite !accelerations_closed_form by assumption.
    repeat split.
    rewrite !map_a_with_net_acc, length_map.
    apply map_ext_in; intros k Hk; apply in_seq in Hk.
    apply net_acc_shift; lia.
Qed.

(** ** The force evaluator *)

Lemma accelerations_overwrites {F : Type} `{FloatOps F} (G EPS2 : F) (bs bs0 : list (Body F)) :
  same_but_a bs bs0 -> accelerations G EPS2 bs0 = accelerations G EPS2 bs.
Proof. unfold same_but_a, accelerations; intros ->; reflexivity. Qed.

Lemma same_but_a_r {F : Type} `{FloatOps F} (st st' : list (Body F)) :
  same_but_a st st' -> map r st' = map r st.
Proof.
  unfold same_but_a; intros E.
  assert (Hr : forall l : list (Body F), map r l = map r (map reset_a l)).
  { intros l; rewrite map_map; apply map_ext; intros []; reflexivity. }
  rewrite (Hr st), (Hr st'); now rewrite E.
Qed.

Lemma with_net_acc_frame (G EPS2 : R) (bs : list (Body R)) :
  same_but_a bs (with_net_acc G EPS2 bs).
Proof.
  rewrite <- fold_pairs_closed_form.
  eapply same_but_a_trans; [apply reset_a_frame | apply fold_apply_pair_frame].
Qed.

Lemma net_acc_same_rm (G EPS2 : R) (l1 l2 : list (Body R)) (k : nat) :
  map r l1 = map r l2 -> map m l1 = map m l2 ->
  net_acc G EPS2 l1 k = net_acc G EPS2 l2 k.
Proof.
  intros Hr Hm.
  assert (Hlen : List.length l1 = List.length l2)
    by (rewrite <- (length_map r l1), Hr; apply length_map).
  assert (Hrk : forall i, r (nth i l1 body0) = r (nth i l2 body0))
    by (intros i; rewrite <- !(map_nth r), Hr; reflexivity).
  assert (Hmk : forall i, m (nth i l1 body0) = m (nth i l2 body0))
    by (intros i; rewrite <- !(map_nth m), Hm; reflexivity).
  unfold net_acc, acc_from; rewrite Hlen.
  apply vsum_map_ext; intros j _.
  now rewrite !Hrk, !Hmk.
Qed.

(** C2: each call resets every acceleration to zero, then visits every
    pair [i < j] exactly once in loop order, adding [f / m_i] to body [i]
    and subtracting [f / m_j] from body [j], where [f] is the softened
    Newtonian force; the result is the net acceleration of every body, it
    does not depend on the accelerations held before the call, and a second
    call right after the first returns the same state. *)
Theorem accelerations_spec (G EPS2 : R) (bs : list (Body R)) :
  0 < EPS2 ->
  accelerations G EPS2 bs
  = Ok (fold_left (apply_pair G EPS2) (pairs (List.length bs)) (map reset_a bs)) /\
  NoDup (pairs (List.length bs)) /\
  (forall i j, In (i, j) (pairs (List.length bs)) <-> (i < j < List.length bs)%nat) /\
  accelerations G EPS2 bs = Ok (with_net_acc G EPS2 bs) /\
  (forall bs0, same_but_a bs bs0 ->
     accelerations G EPS2 bs0 = accelerations G EPS2 bs) /\
  (forall st, accelerations G EPS2 bs = Ok st -> accelerations G EPS2 st = Ok st).
Proof.
  intros He.
  split; [now apply accelerations_pairs|].
  split; [apply NoDup_pairs|].
  split; [intros i j; apply in_pairs|].
  split; [now apply accelerations_closed_form|].
  split; [apply accelerations_overwrites|].
  intros st Hst.
  rewrite (accelerations_overwrites G EPS2 (accelerations_frame _ _ _ Hst)).
  exact Hst.
Qed.

(** ** The integrator *)

(** The result of one step, in closed form. *)
Lemma step_verlet_exact (G EPS2 : R) (bs : list (Body R)) (dt : R) :
  0 < EPS2 ->
  step_verlet G EPS2 bs dt
  = Ok (map (kick dt)
          (with_net_acc G EPS2 (map (kick_drift dt) (with_net_acc G EPS2 bs)))).
Proof.
  intros He; unfold step_verlet.
  rewrite accelerations_closed_form by assumption; cbn [bind].
  rewrite accelerations_closed_form by assumption; reflexivity.
Qed.

Lemma map_kick_rm (dt : R) (l : list (Body R)) :
  map r (map (kick dt) l) = map r l /\ map m (map (kick dt) l) = map m l.
Proof. rewrite !map_map; split; apply map_ext; reflexivity. Qed.

(** C1: one call of [step_verlet] evaluates the accelerations at the
    current positions, sets every velocity to the half-step value and
    advances every position with it, evaluates the accelerations at the new
    positions, and completes every velocity; on return the acceleration
    cache holds the accelerations at the new positions.  It holds for every
    [dt], in particular for [dt > 0]. *)
Theorem step_verlet_spec (G EPS2 : R) (bs : list (Body R)) (dt : R) :
  0 < EPS2 ->
  exists s1 s3 : list (Body R),
    accelerations G EPS2 bs = Ok s1 /\
    accelerations G EPS2 (map (kick_drift dt) s1) = Ok s3 /\
    step_verlet G EPS2 bs dt = Ok (map (kick dt) s3) /\
    List.length (map (kick dt) s3) = List.length bs /\
    forall k, (k < List.length bs)%nat ->
      let b := nth k bs body0 in
      let b1 := nth k s1 body0 in
      let b2 := nth k (map (kick_drift dt) s1) body0 in
      let b' := nth k (map (kick dt) s3) body0 in
      let v_half := v_add (v b) (v_scale (/ 2 * dt) (net_acc G EPS2 bs k)) in
      a b1 = net_acc G EPS2 bs k /\
      v b2 = v_half /\
      r b2 = v_add (r b) (v_scale dt v_half) /\
      r b' = v_add (r b) (v_scale dt v_half) /\
      a b' = net_acc G EPS2 (map (kick dt) s3) k /\
      v b' = v_add v_half (v_scale (/ 2 * dt) (a b')) /\
      m b' = m b /\ color b' = color b /\ trail b' = trail b.
Proof.
  intros He.
  set (s1 := with_net_acc G EPS2 bs).
  set (s2 := map (kick_drift dt) s1).
  set (s3 := with_net_acc G EPS2 s2).
  exists s1, s3; fold s2.
  assert (Hl1 : List.length s1 = List.length bs)
    by (unfold s1, with_net_acc; now rewrite length_map, length_seq).
  assert (Hl2 : List.length s2 = List.length bs)
    by (unfold s2; now rewrite length_map).
  assert (Hl3 : List.length s3 = List.length bs)
    by (unfold s3, with_net_acc; now rewrite length_map, length_seq).
  split; [now apply accelerations_closed_form|].
  split; [now apply accelerations_closed_form|].
  split; [now apply step_verlet_exact|].
  split; [now rewrite length_map|].
  intros k Hk; cbv zeta.
  assert (E1 : nth k s1 body0 = set_a (nth k bs body0) (net_acc G EPS2 bs k))
    by (now apply nth_with_net_acc).
  assert (E2 : nth k s2 body0 = kick_drift dt (nth k s1 body0))
    by (apply nth_map_lt; lia).
  assert (E3 : nth k s3 body0 = set_a (nth k s2 body0) (net_acc G EPS2 s2 k))
    by (apply nth_with_net_acc; lia).
  assert (E4 : nth k (map (kick dt) s3) body0 = kick dt (nth k s3 body0))
    by (apply nth_map_lt; lia).
  assert (Hacc : net_acc G EPS2 (map (kick dt) s3) k = net_acc G EPS2 s2 k).
  { destruct (map_kick_rm dt s3) as [Hr Hm].
    pose proof (with_net_acc_frame G EPS2 s2) as Hfr; fold s3 in Hfr.
    apply net_acc_same_rm.
    - rewrite Hr; apply same_but_a_r, Hfr.
    - rewrite Hm; apply same_but_a_m, Hfr. }
  rewrite Hacc, E4, E3, E2, E1.
  unfold kick, kick_drift, set_a, set_r, set_v; cbn [r v m color trail a f_half f_mul Exact].
  repeat split; reflexivity.
Qed.

(** ** Exact arithmetic: conservation of linear momentum *)

Lemma vsum_update {A : Type} (g : A -> vec2 R) (f : A -> A) (i : nat) (l : list A) (x : A) :
  nth_error l i = Some x ->
  vsum (map g (update i f l)) = v_add (vsum (map g l)) (v_sub (g (f x)) (g x)).
Proof.
  revert i; induction l as [|y l IH]; intros [|i]; simpl; try discriminate.
  - intros [= ->]; vec_eq.
  - intros Hi; rewrite (IH _ Hi); vec_eq.
Qed.

Lemma nonzero_masses_nth (bs : list (Body R)) (i : nat) (b : Body R) :
  nonzero_masses bs -> nth_error bs i = Some b -> m b <> 0.
Proof.
  unfold nonzero_masses; rewrite Forall_forall.
  intros Hnz Hb; apply Hnz; eapply nth_error_In; eassumption.
Qed.

Lemma nonzero_masses_map_m (bs bs' : list (Body R)) :
  map m bs' = map m bs -> nonzero_masses bs -> nonzero_masses bs'.
Proof.
  unfold nonzero_masses; intros E Hnz.
  apply (Forall_map m (fun x => x <> 0)) in Hnz.
  apply (Forall_map m (fun x => x <> 0)).
  now rewrite E.
Qed.

Section ExactMomentum.
Variables (G EPS2 : R).
Hypothesis EPS2_pos : 0 < EPS2.

Lemma apply_pair_force_sum (st : list (Body R)) (i j : nat) :
  nonzero_masses st -> i <> j ->
  (i < List.length st)%nat -> (j < List.length st)%nat ->
  force_sum (apply_pair G EPS2 st (i, j)) = force_sum st.
Proof.
  intros Hnz Hij Hi Hj; unfold apply_pair, force_sum.
  destruct (nth_error st i) as [bi|] eqn:Ei; [|reflexivity].
  destruct (nth_error st j) as [bj|] eqn:Ej; [|reflexivity].
  pose proof (nonzero_masses_nth _ Hnz Ei) as Hmi.
  pose proof (nonzero_masses_nth _ Hnz Ej) as Hmj.
  erewrite vsum_update
    by (rewrite nth_error_update_neq by assumption; exact Ej).
  erewrite vsum_update by exact Ei.
  generalize (newton_force G EPS2 (r bi) (r bj) (m bi) (m bj)); intros f.
  apply vec2_ext; exact_ops; field; auto.
Qed.

Lemma fold_pairs_force_sum (ps : list (nat * nat)) :
  forall st : list (Body R),
    nonzero_masses st ->
    (forall i j, In (i, j) ps ->
       i <> j /\ i < List.length st /\ j < List.length st)%nat ->
    force_sum (fold_left (apply_pair G EPS2) ps st) = force_sum st.
Proof.
  induction ps as [|[i j] ps IH]; intros st Hnz Hps; cbn [fold_left].
  - reflexivity.
  - destruct (Hps i j (or_introl eq_refl)) as (Hij & Hi & Hj).
    pose proof (apply_pair_frame G EPS2 st (i, j)) as Hfr.
    rewrite IH.
    + now apply apply_pair_force_sum.
    + eapply nonzero_masses_map_m; [apply same_but_a_m, Hfr | exact Hnz].
    + intros i' j' Hin; rewrite (same_but_a_length Hfr).
      apply Hps; now right.
Qed.

(** Newton's third law: the accelerations written by one call carry no
    net force. *)
Lemma force_sum_with_net_acc (bs : list (Body R)) :
  nonzero_masses bs -> force_sum (with_net_acc G EPS2 bs) = v_zero.
Proof.
  intros Hnz; rewrite <- fold_pairs_closed_form.
  rewrite fold_pairs_force_sum.
  - unfold force_sum; rewrite map_map.
    apply vsum_map_zero; intros b _; vec_eq.
  - eapply nonzero_masses_map_m; [apply same_but_a_m, reset_a_frame | exact Hnz].
  - intros i j Hin; apply in_pairs in Hin.
    rewrite length_map; lia.
Qed.

Lemma sum_mv_same_but_a (st st' : list (Body R)) :
  same_but_a st st' -> sum_mv st' = sum_mv st.
Proof.
  unfold same_but_a; intros E.
  assert (Hs : forall l : list (Body R), sum_mv l = sum_mv (map reset_a l)).
  { intros l; rewrite !sum_mv_vsum, map_map; reflexivity. }
  rewrite (Hs st), (Hs st'); now rewrite E.
Qed.

Lemma vsum_kicked (h : R) (l : list (Body R)) :
  vsum (map (fun b => v_scale (m b) (v_add (v b) (v_scale h (a b)))) l)
  = v_add (sum_mv l) (v_scale h (force_sum l)).
Proof.
  rewrite sum_mv_vsum; unfold force_sum.
  induction l as [|b l IH]; simpl.
  - vec_eq.
  - rewrite IH; vec_eq.
Qed.

Lemma sum_mv_kick (dt : R) (l : list (Body R)) :
  sum_mv (map (kick dt) l) = v_add (sum_mv l) (v_scale (/ 2 * dt) (force_sum l)).
Proof.
  rewrite sum_mv_vsum, map_map; apply (vsum_kicked (/ 2 * dt) l).
Qed.

Lemma sum_mv_kick_drift (dt : R) (l : list (Body R)) :
  sum_mv (map (kick_drift dt) l)
  = v_add (sum_mv l) (v_scale (/ 2 * dt) (force_sum l)).
Proof.
  rewrite sum_mv_vsum, map_map; apply (vsum_kicked (/ 2 * dt) l).
Qed.

Lemma step_verlet_momentum (bs : list (Body R)) (dt : R) :
  nonzero_masses bs ->
  exists bs', step_verlet G EPS2 bs dt = Ok bs' /\
              sum_mv bs' = sum_mv bs /\ nonzero_masses bs'.
Proof.
  intros Hnz; eexists; split; [now apply step_verlet_exact|].
  set (s1 := with_net_acc G EPS2 bs).
  set (s2 := map (kick_drift dt) s1).
  assert (Hm1 : map m s1 = map m bs)
    by apply same_but_a_m, with_net_acc_frame.
  assert (Hm2 : map m s2 = map m bs).
  { unfold s2; rewrite map_map, <- Hm1; apply map_ext; reflexivity. }
  assert (Hnz2 : nonzero_masses s2)
    by (eapply nonzero_masses_map_m; eassumption).
  split.
  - rewrite sum_mv_kick, force_sum_with_net_acc by assumption.
    rewrite (sum_mv_same_but_a (with_net_acc_frame G EPS2 s2)).
    unfold s2; rewrite sum_mv_kick_drift.
    unfold s1; rewrite force_sum_with_net_acc by assumption.
    rewrite (sum_mv_same_but_a (with_net_acc_frame G EPS2 bs)).
    vec_eq.
  - eapply nonzero_masses_map_m; [|exact Hnz2].
    destruct (map_kick_rm dt (with_net_acc G EPS2 s2)) as [_ ->].
    apply same_but_a_m, with_net_acc_frame.
Qed.

Lemma steps_momentum (dts : list R) :
  forall bs : list (Body R),
    nonzero_masses bs ->
    exists bs', steps G EPS2 dts bs = Ok bs' /\ sum_mv bs' = sum_mv bs.
Proof.
  unfold steps; induction dts as [|dt dts IH]; intros bs Hnz; cbn [for_each].
  - eauto.
  - destruct (step_verlet_momentum dt Hnz) as (bs1 & -> & Hp & Hnz1); cbn [bind].
    destruct (IH bs1 Hnz1) as (bs' & -> & Hp').
    exists bs'; split; [reflexivity | congruence].
Qed.
End ExactMomentum.

(** C4: with the symmetric pairwise forces of [accelerations], one
    [step_verlet] call leaves the total linear momentum unchanged; hence
    after [to_com_frame] the total momentum is zero after any sequence of
    steps.  (Exact arithmetic.) *)
Theorem momentum_conserved (G EPS2 : R) (bs : list (Body R)) :
  0 < EPS2 -> nonzero_masses bs ->
  (forall dt, exists bs', step_verlet G EPS2 bs dt = Ok bs' /\ sum_mv bs' = sum_mv bs) /\
  (0 < sum_m bs ->
   exists bs0, to_com_frame bs = Ok bs0 /\
     forall dts, exists bsn, steps G EPS2 dts bs0 = Ok bsn /\ sum_mv bsn = v_zero).
Proof.
  intros He Hnz; split.
  - intros dt.
    destruct (step_verlet_momentum G He dt Hnz) as (bs' & Hrun & Hp & _); eauto.
  - intros HM.
    assert (Hne : bs <> []).
    { intros ->; unfold sum_m in HM; simpl in HM; lra. }
    assert (HM0 : sum_m bs <> 0) by lra.
    destruct (to_com_frame_sums Hne HM0) as (bs0 & Hrun & _ & Hv).
    exists bs0; split; [exact Hrun|].
    intros dts.
    assert (Hnz0 : nonzero_masses bs0)
      by (eapply nonzero_masses_map_m; [eapply to_com_frame_m, Hrun | exact Hnz]).
    destruct (steps_momentum G He dts Hnz0) as (bsn & Hsteps & Hp).
    exists bsn; split; [exact Hsteps | congruence].
Qed.

(** ** Masses are never written *)

(** C7: no engine operation writes a mass: after any sequence of force
    evaluations, integrator steps and [to_com_frame] calls every mass, and
    so the total mass, is what it was.  It holds in any arithmetic. *)
Theorem mass_immutable {F : Type} `{FloatOps F} (G EPS2 : F) (ops : list (op F))
    (bs bs' : list (Body F)) :
  run G EPS2 ops bs = Ok bs' ->
  map m bs' = map m bs /\ sum_m bs' = sum_m bs.
Proof.
  intros Hrun.
  assert (Hm : map m bs' = map m bs).
  { revert Hrun; unfold run.
    apply for_each_invariant with (P := fun s => map m s = map m bs).
    - intros s o s' Hs Ho; rewrite <- Hs; eapply run_op_m; eassumption.
    - reflexivity. }
  split; [exact Hm | now apply sum_m_map_m].
Qed.

(** In exact arithmetic with [EPS2 > 0], every run on a non-empty system
    returns. *)
Lemma run_returns_exact (G EPS2 : R) (ops : list (op R)) :
  0 < EPS2 ->
  forall bs : list (Body R), bs <> [] -> exists bs', run G EPS2 ops bs = Ok bs'.
Proof.
  intros He; unfold run.
  induction ops as [|o ops IH]; intros bs Hne; cbn [for_each]; [eauto|].
  assert (Hop : exists s, run_op G EPS2 bs o = Ok s /\ s <> []).
  { assert (Hlen : forall s : list (Body R), map m s = map m bs -> s <> []).
    { intros s E ->; destruct bs; [contradiction | discriminate]. }
    destruct o as [|dt|]; cbn [run_op].
    - eexists; split; [now apply accelerations_closed_form|].
      apply Hlen, same_but_a_m, with_net_acc_frame.
    - eexists; split; [now apply step_verlet_exact|].
      apply Hlen; eapply step_verlet_m; now apply step_verlet_exact.
    - eexists; split; [now apply to_com_frame_exact|].
      apply Hlen; eapply to_com_frame_m; now apply to_com_frame_exact. }
  destruct Hop as (s & -> & Hs); cbn [bind]; auto.
Qed.

Lemma mass_immutable_witness :
  exists bs',
    run G_b64 EPS2_b64
      [OpToComFrame; OpStep (SFdiv 53 1024 (b64_of_Z 1) (b64_of_Z 100)); OpAccelerations]
      two_body_b64 = Ok bs' /\
    map m bs' = map m two_body_b64 /\ sum_m bs' = sum_m two_body_b64.
Proof.
  eexists; split; [vm_compute; reflexivity|].
  apply (mass_immutable G_b64 EPS2_b64
           [OpToComFrame; OpStep (SFdiv 53 1024 (b64_of_Z 1) (b64_of_Z 100)); OpAccelerations]
           two_body_b64).
  vm_compute; reflexivity.
Defined.

(** ** Construction *)

(** C9, as the code has it: construction validates nothing.  [Body_init]
    stores whatever mass it is given; the empty list is accepted by
    [accelerations] and [step_verlet], which return it unchanged; only
    [to_com_frame] fails on it, with [ZeroDivisionError]. *)
Theorem construction_unchecked {F : Type} `{FloatOps F} (G EPS2 : F) :
  (forall (x y vx vy mass : F) (col : string),
     let b := Body_init x y vx vy mass col in
     r b = mkvec x y /\ v b = mkvec vx vy /\ m b = mass /\
     color b = col /\ trail b = [] /\ a b = v_zero) /\
  accelerations G EPS2 [] = Ok [] /\
  (forall dt, step_verlet G EPS2 [] dt = Ok []) /\
  to_com_frame (@nil (Body F)) = Raise ZeroDivisionError.
Proof.
  split; [intros; cbv zeta; repeat split|].
  split; [reflexivity|].
  split; [intros dt; reflexivity | reflexivity].
Qed.

(** C9 as stated fails: a body of mass -1 is constructed, and the engine
    steps the system made of it; the empty system is stepped as well. *)
Lemma construction_accepts_invalid :
  let b := Body_init 0 0 0 0 (-1) "tab:blue" in
  m b = -1 /\ m b <= 0 /\
  (exists st, step_verlet G_exact EPS2_exact [b] (1 / 100) = Ok st /\ map m st = [-1]) /\
  step_verlet G_exact EPS2_exact [] (1 / 100) = Ok [].
Proof.
  cbv zeta; split; [reflexivity|].
  split; [simpl; lra|].
  split; [eexists; split; reflexivity | reflexivity].
Qed.

(** ** Pairwise antisymmetry *)

(** In any arithmetic, a two-body call evaluates one force vector and
    writes [0 + f / m_1] and [0 - f / m_2]. *)
Lemma accelerations_two_bodies {F : Type} `{FloatOps F} (G EPS2 : F) (b1 b2 : Body F) :
  accelerations G EPS2 [b1; b2]
  = (f <- pair_force G EPS2 (r b1) (r b2) (m b1) (m b2) ;;
     Ok [set_a b1 (v_add v_zero (v_divs f (m b1)));
         set_a b2 (v_sub v_zero (v_divs f (m b2)))]).
Proof.
  unfold accelerations, outer_body, inner_body, getitem, modify; simpl.
  destruct (pair_force G EPS2 (r b1) (r b2) (m b1) (m b2)); reflexivity.
Qed.

(** C5, in exact arithmetic: in a two-body system with non-zero masses the
    two accelerations written by one call are [f / m_1] and [- f / m_2] for
    one and the same force vector [f], so [a_1 * m_1 = - (a_2 * m_2)]. *)
Theorem pair_antisymmetry_exact (G EPS2 : R) (b1 b2 : Body R) :
  0 < EPS2 -> m b1 <> 0 -> m b2 <> 0 ->
  exists (f : vec2 R) (b1' b2' : Body R),
    pair_force G EPS2 (r b1) (r b2) (m b1) (m b2) = Ok f /\
    accelerations G EPS2 [b1; b2] = Ok [b1'; b2'] /\
    a b1' = v_add v_zero (v_divs f (m b1)) /\
    a b2' = v_sub v_zero (v_divs f (m b2)) /\
    m b1' = m b1 /\ m b2' = m b2 /\
    v_muls (a b1') (m b1') = f /\
    v_opp (v_muls (a b2') (m b2')) = f /\
    antisymmetric b1' b2'.
Proof.
  intros He Hm1 Hm2.
  set (f := newton_force G EPS2 (r b1) (r b2) (m b1) (m b2)).
  exists f,
    (set_a b1 (v_add v_zero (v_divs f (m b1)))),
    (set_a b2 (v_sub v_zero (v_divs f (m b2)))).
  split; [now apply pair_force_exact|].
  split; [rewrite accelerations_two_bodies, pair_force_exact by assumption; reflexivity|].
  assert (E1 : v_muls (v_add v_zero (v_divs f (m b1))) (m b1) = f)
    by (apply vec2_ext; exact_ops; field; assumption).
  assert (E2 : v_opp (v_muls (v_sub v_zero (v_divs f (m b2))) (m b2)) = f)
    by (apply vec2_ext; exact_ops; field; assumption).
  unfold antisymmetric; cbn [set_a r v m a color trail].
  repeat split; try assumption.
  now rewrite E1, E2.
Qed.

(** The binary64 constants, bit for bit: [1e-3] is [0x1.0624dd2f1a9fcp-10]
    and [0.5] is [0x1p-1]. *)
Lemma binary64_constants :
  EPS2_b64 = S754_finite false 4611686018427388 (-62) /\
  f_half = S754_finite false 4503599627370496 (-53) /\
  G_b64 = S754_finite false 4503599627370496 (-52).
Proof. repeat split; vm_compute; reflexivity. Qed.

(** C5 as stated fails in the arithmetic the interpreter performs: for
    masses 1 and 3 at distance 5, [a_1 * m_1] and [- (a_2 * m_2)] differ in
    the last bit of the mantissa. *)
Lemma pair_antisymmetry_fails_binary64 :
  exists b1' b2' : Body binary64,
    accelerations G_b64 EPS2_b64 two_body_b64 = Ok [b1'; b2'] /\
    c0 (v_muls (a b1') (m b1')) = S754_finite false 8646392495813801 (-56) /\
    c0 (v_opp (v_muls (a b2') (m b2'))) = S754_finite false 8646392495813800 (-56) /\
    SFeqb (c0 (v_muls (a b1') (m b1'))) (c0 (v_opp (v_muls (a b2') (m b2')))) = false /\
    ~ antisymmetric b1' b2'.
Proof.
  eexists; eexists.
  split; [vm_compute; reflexivity|].
  split; [vm_compute; reflexivity|].
  split; [vm_compute; reflexivity|].
  split; [vm_compute; reflexivity|].
  unfold antisymmetric; intros Habs.
  vm_compute in Habs; discriminate Habs.
Qed.

(** ** Softening: no division by zero, bounded accelerations *)








Lemma map_nth_seq {A B : Type} (g : A -> B) (d : A) (l : list A) :
  map (fun k => g (nth k l d)) (seq 0 (List.length l)) = map g l.
Proof.
  induction l as [|x l IH]; simpl; [reflexivity|].
  f_equal; rewrite <- seq_shift, map_map; exact IH.
Qed.




(** ** The theorems at the two-body scenario *)

Lemma EPS2_exact_pos : 0 < EPS2_exact.
Proof. unfold EPS2_exact; lra. Defined.

Lemma two_body_exact_nonempty : two_body_exact <> [].
Proof. discriminate. Defined.

Lemma two_body_exact_nonzero : nonzero_masses two_body_exact.
Proof. repeat constructor; simpl; lra. Defined.

Lemma two_body_exact_mass : 0 < sum_m two_body_exact.
Proof. unfold sum_m; simpl; lra. Defined.

Lemma step_verlet_spec_witness :
  0 < EPS2_exact /\
  exists s1 s3 : list (Body R),
    accelerations G_exact EPS2_exact two_body_exact = Ok s1 /\
    accelerations G_exact EPS2_exact (map (kick_drift (1 / 100)) s1) = Ok s3 /\
    step_verlet G_exact EPS2_exact two_body_exact (1 / 100) = Ok (map (kick (1 / 100)) s3) /\
    List.length (map (kick (1 / 100)) s3) = 2%nat.
Proof.
  split; [exact EPS2_exact_pos|].
  destruct (step_verlet_spec G_exact two_body_exact (1 / 100) EPS2_exact_pos)
    as (s1 & s3 & H1 & H3 & Hstep & Hlen & _).
  exists s1, s3; repeat split; assumption.
Defined.

Lemma accelerations_spec_witness :
  0 < EPS2_exact /\
  accelerations G_exact EPS2_exact two_body_exact
  = Ok (fold_left (apply_pair G_exact EPS2_exact) (pairs 2) (map reset_a two_body_exact)) /\
  NoDup (pairs 2) /\
  (forall i j, In (i, j) (pairs 2) <-> (i < j < 2)%nat) /\
  accelerations G_exact EPS2_exact two_body_exact
  = Ok (with_net_acc G_exact EPS2_exact two_body_exact) /\
  (forall bs0, same_but_a two_body_exact bs0 ->
     accelerations G_exact EPS2_exact bs0 = accelerations G_exact EPS2_exact two_body_exact) /\
  (forall st, accelerations G_exact EPS2_exact two_body_exact = Ok st ->
     accelerations G_exact EPS2_exact st = Ok st).
Proof.
  split; [exact EPS2_exact_pos|].
  exact (accelerations_spec G_exact two_body_exact EPS2_exact_pos).
Defined.

Lemma com_frame_centres_witness :
  two_body_exact <> [] /\ 0 < sum_m two_body_exact /\
  exists bs', to_com_frame two_body_exact = Ok bs' /\
              List.length bs' = 2%nat /\ map m bs' = [1; 3] /\
              sum_mr bs' = v_zero /\ sum_mv bs' = v_zero.
Proof.
  split; [exact two_body_exact_nonempty|].
  split; [exact two_body_exact_mass|].
  destruct (com_frame_centres two_body_exact_nonempty two_body_exact_mass)
    as (bs' & Hrun & _ & Hlen & Hm & _ & _ & _ & _ & Hr & Hv & _).
  exists bs'; repeat split; assumption.
Defined.

Lemma momentum_conserved_witness :
  0 < EPS2_exact /\ nonzero_masses two_body_exact /\ 0 < sum_m two_body_exact /\
  (forall dt, exists bs',
     step_verlet G_exact EPS2_exact two_body_exact dt = Ok bs' /\
     sum_mv bs' = sum_mv two_body_exact) /\
  exists bs0, to_com_frame two_body_exact = Ok bs0 /\
    forall dts, exists bsn,
      steps G_exact EPS2_exact dts bs0 = Ok bsn /\ sum_mv bsn = v_zero.
Proof.
  split; [exact EPS2_exact_pos|].
  split; [exact two_body_exact_nonzero|].
  split; [exact two_body_exact_mass|].
  destruct (momentum_conserved G_exact EPS2_exact_pos two_body_exact_nonzero)
    as [Hstep Hcom].
  split; [exact Hstep | exact (Hcom two_body_exact_mass)].
Defined.

Lemma pair_antisymmetry_exact_witness :
  0 < EPS2_exact /\ (1 : R) <> 0 /\ (3 : R) <> 0 /\
  exists b1' b2' : Body R,
    accelerations G_exact EPS2_exact two_body_exact = Ok [b1'; b2'] /\
    antisymmetric b1' b2'.
Proof.
  assert (H1 : (1 : R) <> 0) by lra.
  assert (H3 : (3 : R) <> 0) by lra.
  split; [exact EPS2_exact_pos|].
  split; [exact H1|].
  split; [exact H3|].
  destruct (pair_antisymmetry_exact G_exact
              (Body_init 0 0 0 0 1 "tab:orange") (Body_init 5 0 0 0 3 "tab:blue")
              EPS2_exact_pos H1 H3)
    as (f & b1' & b2' & _ & Hacc & _ & _ & _ & _ & _ & _ & Hanti).
  exists b1', b2'; split; [exact Hacc | exact Hanti].
Defined.

Lemma com_frame_idempotent_witness :
  two_body_exact <> [] /\ 0 < sum_m two_body_exact /\
  exists bs',
    to_com_frame two_body_exact = Ok bs' /\
    v_divs (sum_mr bs') (sum_m bs') = v_zero /\
    v_divs (sum_mv bs') (sum_m bs') = v_zero /\
    to_com_frame bs' = Ok bs'.
Proof.
  split; [exact two_body_exact_nonempty|].
  split; [exact two_body_exact_mass|].
  exact (com_frame_idempotent two_body_exact_nonempty two_body_exact_mass).
Defined.


Lemma com_frame_preserves_differences_witness :
  two_body_exact <> [] /\ 0 < sum_m two_body_exact /\ 0 < EPS2_exact /\
  exists bs' : list (Body R),
    to_com_frame two_body_exact = Ok bs' /\
    v_sub (r (nth 1 bs' body0)) (r (nth 0 bs' body0))
    = v_sub (r (nth 1 two_body_exact body0)) (r (nth 0 two_body_exact body0)) /\
    exists st st',
      accelerations G_exact EPS2_exact two_body_exact = Ok st /\
      accelerations G_exact EPS2_exact bs' = Ok st' /\
      map a st' = map a st.
Proof.
  split; [exact two_body_exact_nonempty|].
  split; [exact two_body_exact_mass|].
  split; [exact EPS2_exact_pos|].
  destruct (com_frame_preserves_differences G_exact
              two_body_exact_nonempty two_body_exact_mass EPS2_exact_pos)
    as (bs' & rc & vc & Hrun & _ & _ & Hdiff & Hacc).
  exists bs'; split; [exact Hrun|].
  split; [|exact Hacc].
  apply (Hdiff 0%nat 1%nat); simpl; lia.
Defined.

(** * Further properties of the engine *)

(** ** Number of pair evaluations *)

Lemma length_flat_map_sum {A B : Type} (f : A -> list B) (l : list A) :
  List.length (flat_map f l) = list_sum (map (fun x => List.length (f x)) l).
Proof.
  induction l as [|x l IH]; simpl; [reflexivity|].
  now rewrite length_app, IH.
Qed.

Lemma triangle_sum (K n : nat) :
  forall s, (s + n = K)%nat ->
  (2 * list_sum (map (fun i => K - (i + 1)) (seq s n)) = n * (n - 1))%nat.
Proof.
  induction n as [|n IH]; intros s Hs; cbn [seq map list_sum fold_right];
    [reflexivity|].
  specialize (IH (S s) ltac:(lia)).
  unfold list_sum in IH.
  replace (K - (s + 1))%nat with n by lia.
  destruct n as [|n]; [simpl in *; lia|].
  replace (S (S n) - 1)%nat with (S n) by lia.
  replace (S n - 1)%nat with n in IH by lia.
  nia.
Qed.

Lemma length_pairs_double (N : nat) : (2 * List.length (pairs N) = N * (N - 1))%nat.
Proof.
  rewrite pairs_full_range, length_flat_map_sum.
  rewrite <- (@triangle_sum N N 0%nat eq_refl).
  do 2 f_equal; apply map_ext; intros i.
  now rewrite length_map, length_seq.
Qed.

(** X1: one call of [accelerations] on [N] bodies evaluates the pair force
    exactly [N * (N - 1) / 2] times: the call is the fold of the pair
    visit over a list of that length. *)
Theorem accelerations_pair_count (G EPS2 : R) (bs : list (Body R)) :
  0 < EPS2 ->
  accelerations G EPS2 bs
  = Ok (fold_left (apply_pair G EPS2) (pairs (List.length bs)) (map reset_a bs)) /\
  List.length (pairs (List.length bs))
  = (List.length bs * (List.length bs - 1) / 2)%nat.
Proof.
  intros He; split; [now apply accelerations_pairs|].
  pose proof (length_pairs_double (List.length bs)) as H2.
  rewrite <- H2, Nat.mul_comm, Nat.div_mul by discriminate.
  reflexivity.
Qed.

(** ** Fewer than two bodies *)


(** ** Why the softening is needed *)

Lemma pair_force_cases (G EPS2 : R) (ri rj : vec2 R) (mi mj : R) :
  (dist2 EPS2 ri rj < 0 -> pair_force G EPS2 ri rj mi mj = Raise ValueError) /\
  (dist2 EPS2 ri rj = 0 -> pair_force G EPS2 ri rj mi mj = Raise ZeroDivisionError) /\
  (0 < dist2 EPS2 ri rj -> exists f, pair_force G EPS2 ri rj mi mj = Ok f).
Proof.
  unfold pair_force; exact_ops; fold (dist2 EPS2 ri rj).
  repeat split.
  - intros Hd; unfold math_sqrt; exact_ops.
    destruct (Rlt_dec (dist2 EPS2 ri rj) 0); [reflexivity | contradiction].
  - intros Hd; rewrite Hd.
    rewrite math_sqrt_exact by lra; cbn [bind].
    unfold float_truediv; exact_ops; rewrite sqrt_0.
    destruct (Req_dec_T 0 0); [reflexivity | contradiction].
  - intros Hd; pose proof (sqrt_lt_R0 _ Hd) as Hs.
    rewrite math_sqrt_exact by lra; cbn [bind].
    rewrite float_truediv_exact by lra; cbn [bind].
    eauto.
Qed.

(** X3: for two bodies the call succeeds exactly when the softened squared
    distance is positive; when it is zero (for instance [EPS2 = 0] and
    coincident positions) the call raises [ZeroDivisionError], and when it
    is negative it raises [ValueError]. *)
Theorem accelerations_two_bodies_errors (G EPS2 : R) (b1 b2 : Body R) :
  (dist2 EPS2 (r b1) (r b2) < 0 ->
   accelerations G EPS2 [b1; b2] = Raise ValueError) /\
  (dist2 EPS2 (r b1) (r b2) = 0 ->
   accelerations G EPS2 [b1; b2] = Raise ZeroDivisionError) /\
  (0 < dist2 EPS2 (r b1) (r b2) ->
   exists st, accelerations G EPS2 [b1; b2] = Ok st).
Proof.
  destruct (pair_force_cases G EPS2 (r b1) (r b2) (m b1) (m b2)) as (Hneg & Hzero & Hpos).
  rewrite accelerations_two_bodies.
  repeat split.
  - intros Hd; now rewrite Hneg.
  - intros Hd; now rewrite Hzero.
  - intros Hd; destruct (Hpos Hd) as (f & ->); cbn [bind]; eauto.
Qed.

Lemma accelerations_two_bodies_errors_witness :
  accelerations 1 (-1) [Body_init 0 0 0 0 1 "a"; Body_init 0 0 0 0 3 "b"]
  = Raise ValueError /\
  accelerations 1 0 [Body_init 0 0 0 0 1 "a"; Body_init 0 0 0 0 3 "b"]
  = Raise ZeroDivisionError /\
  exists st,
    accelerations 1 0 [Body_init 0 0 0 0 1 "a"; Body_init 5 0 0 0 3 "b"] = Ok st.
Proof.
  split; [|split].
  - apply (accelerations_two_bodies_errors 1 (-1)).
    unfold dist2; simpl; lra.
  - apply (accelerations_two_bodies_errors 1 0).
    unfold dist2; simpl; lra.
  - apply (accelerations_two_bodies_errors 1 0).
    unfold dist2; simpl; lra.
Defined.

(** ** Change of inertial frame *)

Lemma map_eq_nth {A B : Type} (f g : A -> B) (l l' : list A) (d : A) :
  List.length l = List.length l' ->
  (forall k, (k < List.length l)%nat -> f (nth k l d) = g (nth k l' d)) ->
  map f l = map g l'.
Proof.
  revert l'; induction l as [|x l IH]; intros [|x' l'] Hlen Hk;
    simpl in Hlen; try discriminate; [reflexivity|].
  simpl; f_equal.
  - apply (Hk 0%nat); simpl; lia.
  - apply IH; [lia|].
    intros k Hlt; apply (Hk (S k)); simpl; lia.
Qed.

Lemma length_with_net_acc (G EPS2 : R) (bs : list (Body R)) :
  List.length (with_net_acc G EPS2 bs) = List.length bs.
Proof. unfold with_net_acc; now rewrite length_map, length_seq. Qed.

Lemma with_net_acc_shift (G EPS2 : R) (c u : vec2 R) (bs : list (Body R)) :
  with_net_acc G EPS2 (map (shift c u) bs) = map (shift c u) (with_net_acc G EPS2 bs).
Proof.
  unfold with_net_acc; rewrite length_map, map_map.
  apply map_ext_in; intros k Hk; apply in_seq in Hk.
  rewrite net_acc_shift by lia.
  rewrite nth_map_lt with (d := body0) by lia.
  reflexivity.
Qed.

Lemma kick_drift_shift (dt : R) (c u : vec2 R) (b : Body R) :
  kick_drift dt (shift c u b) = shift (v_add c (v_scale dt u)) u (kick_drift dt b).
Proof.
  unfold kick_drift, shift, set_r, set_v; cbn [r v m color trail a].
  f_equal; vec_eq.
Qed.

Lemma kick_shift (dt : R) (c u : vec2 R) (b : Body R) :
  kick dt (shift c u b) = shift c u (kick dt b).
Proof.
  unfold kick, shift, set_r, set_v; cbn [r v m color trail a].
  f_equal; vec_eq.
Qed.

Lemma map_kick_drift_shift (dt : R) (c u : vec2 R) (l : list (Body R)) :
  map (kick_drift dt) (map (shift c u) l)
  = map (shift (v_add c (v_scale dt u)) u) (map (kick_drift dt) l).
Proof. rewrite !map_map; apply map_ext; intros b; apply kick_drift_shift. Qed.

Lemma map_kick_shift (dt : R) (c u : vec2 R) (l : list (Body R)) :
  map (kick dt) (map (shift c u) l) = map (shift c u) (map (kick dt) l).
Proof. rewrite !map_map; apply map_ext; intros b; apply kick_shift. Qed.

(** X4: Galilean invariance of the integrator.  Stepping a system seen
    from a frame displaced by [rc] and moving with velocity [vc] gives the
    stepped system seen from that frame, which has moved on by [dt * vc]
    in the meantime. *)
Theorem step_verlet_galilean (G EPS2 : R) (bs : list (Body R)) (dt : R) (rc vc : vec2 R) :
  0 < EPS2 ->
  exists st,
    step_verlet G EPS2 bs dt = Ok st /\
    step_verlet G EPS2 (map (shift rc vc) bs) dt
    = Ok (map (shift (v_add rc (v_scale dt vc)) vc) st).
Proof.
  intros He; eexists; split; [now apply step_verlet_exact|].
  rewrite step_verlet_exact by assumption; f_equal.
  rewrite with_net_acc_shift, map_kick_drift_shift, with_net_acc_shift.
  apply map_kick_shift.
Qed.

Lemma step_verlet_galilean_witness :
  0 < EPS2_exact /\
  exists st,
    step_verlet G_exact EPS2_exact setup_four_bodies DT_exact = Ok st /\
    step_verlet G_exact EPS2_exact
      (map (shift (mkvec 1 2) (mkvec 3 4)) setup_four_bodies) DT_exact
    = Ok (map (shift (v_add (mkvec 1 2) (v_scale DT_exact (mkvec 3 4))) (mkvec 3 4)) st).
Proof.
  split; [exact EPS2_exact_pos|].
  exact (step_verlet_galilean G_exact setup_four_bodies DT_exact
           (mkvec 1 2) (mkvec 3 4) EPS2_exact_pos).
Defined.

(** ** Time reversal *)

(** Evaluation of nested body updates, innermost first. *)
Ltac body_ops :=
  cbv [kick kick_drift shift set_a set_r set_v v_add v_sub v_scale
       r v m color trail a c0 c1 f_half f_mul f_add f_sub Exact].

Lemma reverse_body (dt : R) (b : Body R) (a0 a1 : vec2 R) :
  kick (- dt)
    (set_a (kick_drift (- dt) (set_a (kick dt (set_a (kick_drift dt (set_a b a0)) a1)) a1)) a0)
  = set_a b a0.
Proof.
  destruct b as [[p0 p1] [w0 w1] mass col tr acc].
  destruct a0 as [x0 y0], a1 as [x1 y1].
  body_ops; f_equal; f_equal; ring.
Qed.

Section ExactStepNth.
Variables (G EPS2 : R) (bs : list (Body R)) (dt : R).

(** The state between the two force evaluations of a step, and the state
    the step returns. *)
Let drifted : list (Body R) := map (kick_drift dt) (with_net_acc G EPS2 bs).
Let stepped : list (Body R) := map (kick dt) (with_net_acc G EPS2 drifted).

Lemma length_stepped :
  List.length (map (kick dt) (with_net_acc G EPS2
                 (map (kick_drift dt) (with_net_acc G EPS2 bs)))) = List.length bs.
Proof. now rewrite length_map, length_with_net_acc, length_map, length_with_net_acc. Qed.

Lemma nth_drifted (k : nat) :
  (k < List.length bs)%nat ->
  nth k (map (kick_drift dt) (with_net_acc G EPS2 bs)) body0
  = kick_drift dt (set_a (nth k bs body0) (net_acc G EPS2 bs k)).
Proof.
  intros Hk.
  rewrite nth_map_lt with (d := body0) by (rewrite length_with_net_acc; lia).
  now rewrite nth_with_net_acc.
Qed.

Lemma net_acc_stepped (k : nat) :
  net_acc G EPS2 (map (kick dt) (with_net_acc G EPS2
                    (map (kick_drift dt) (with_net_acc G EPS2 bs)))) k
  = net_acc G EPS2 (map (kick_drift dt) (with_net_acc G EPS2 bs)) k.
Proof.
  destruct (map_kick_rm dt (with_net_acc G EPS2 drifted)) as [Hr Hm].
  pose proof (with_net_acc_frame G EPS2 drifted) as Hfr.
  apply net_acc_same_rm.
  - fold drifted; rewrite Hr; apply same_but_a_r, Hfr.
  - fold drifted; rewrite Hm; apply same_but_a_m, Hfr.
Qed.

Lemma nth_stepped (k : nat) :
  (k < List.length bs)%nat ->
  nth k (map (kick dt) (with_net_acc G EPS2
           (map (kick_drift dt) (with_net_acc G EPS2 bs)))) body0
  = kick dt
      (set_a (kick_drift dt (set_a (nth k bs body0) (net_acc G EPS2 bs k)))
             (net_acc G EPS2 (map (kick_drift dt) (with_net_acc G EPS2 bs)) k)).
Proof.
  intros Hk.
  rewrite nth_map_lt with (d := body0)
    by (rewrite length_with_net_acc, length_map, length_with_net_acc; lia).
  rewrite nth_with_net_acc by (rewrite length_map, length_with_net_acc; lia).
  now rewrite nth_drifted.
Qed.
End ExactStepNth.

(** X5: the integrator is time-reversible.  A step of [dt] followed by a
    step of [- dt] returns every position and velocity to what it was; the
    acceleration cache then holds the accelerations at those positions. *)
Theorem step_verlet_reversible (G EPS2 : R) (bs : list (Body R)) (dt : R) :
  0 < EPS2 ->
  exists st1 st2,
    step_verlet G EPS2 bs dt = Ok st1 /\
    step_verlet G EPS2 st1 (- dt) = Ok st2 /\
    st2 = with_net_acc G EPS2 bs /\
    map r st2 = map r bs /\ map v st2 = map v bs /\ map m st2 = map m bs.
Proof.
  intros He.
  set (st1 := map (kick dt) (with_net_acc G EPS2
                (map (kick_drift dt) (with_net_acc G EPS2 bs)))).
  assert (Hl1 : List.length st1 = List.length bs) by apply length_stepped.
  assert (Hback : map (kick (- dt)) (with_net_acc G EPS2
                    (map (kick_drift (- dt)) (with_net_acc G EPS2 st1)))
                  = with_net_acc G EPS2 bs).
  { assert (Hn1 : forall k, (k < List.length bs)%nat ->
              nth k (map (kick_drift (- dt)) (with_net_acc G EPS2 st1)) body0
              = kick_drift (- dt)
                  (set_a (kick dt
                     (set_a (kick_drift dt (set_a (nth k bs body0) (net_acc G EPS2 bs k)))
                        (net_acc G EPS2 (map (kick_drift dt) (with_net_acc G EPS2 bs)) k)))
                     (net_acc G EPS2 (map (kick_drift dt) (with_net_acc G EPS2 bs)) k))).
    { intros k Hk.
      rewrite nth_drifted by lia.
      unfold st1; rewrite net_acc_stepped, nth_stepped by assumption.
      reflexivity. }
    assert (Hacc : forall k,
              net_acc G EPS2 (map (kick_drift (- dt)) (with_net_acc G EPS2 st1)) k
              = net_acc G EPS2 bs k).
    { intros k; apply net_acc_same_rm.
      - apply map_eq_nth with (d := body0).
        + now rewrite length_map, length_with_net_acc.
        + rewrite length_map, length_with_net_acc, Hl1; intros j Hj.
          rewrite Hn1 by assumption.
          generalize (net_acc G EPS2 bs j),
            (net_acc G EPS2 (map (kick_drift dt) (with_net_acc G EPS2 bs)) j).
          intros [x0 y0] [x1 y1].
          destruct (nth j bs body0) as [[p0 p1] [w0 w1] mass col tr acc].
          body_ops; f_equal; ring.
      - apply map_eq_nth with (d := body0).
        + now rewrite length_map, length_with_net_acc.
        + rewrite length_map, length_with_net_acc, Hl1; intros j Hj.
          rewrite Hn1 by assumption.
          destruct (nth j bs body0); reflexivity. }
    apply nth_ext with (d := body0) (d' := body0).
    - now rewrite length_stepped, length_with_net_acc.
    - rewrite length_stepped, Hl1; intros k Hk.
      rewrite nth_map_lt with (d := body0)
        by (rewrite length_with_net_acc, length_map, length_with_net_acc; lia).
      rewrite nth_with_net_acc by (rewrite length_map, length_with_net_acc; lia).
      rewrite Hn1, Hacc, nth_with_net_acc by assumption.
      apply reverse_body. }
  exists st1, (with_net_acc G EPS2 bs).
  split; [now apply step_verlet_exact|].
  split; [rewrite step_verlet_exact by assumption; now rewrite Hback|].
  split; [reflexivity|].
  pose proof (with_net_acc_frame G EPS2 bs) as Hfr.
  split; [apply same_but_a_r, Hfr|].
  split; [|apply same_but_a_m, Hfr].
  unfold with_net_acc; rewrite map_map.
  apply (map_nth_seq v body0 bs).
Qed.

Lemma step_verlet_reversible_witness :
  0 < EPS2_exact /\
  exists st1 st2,
    step_verlet G_exact EPS2_exact setup_four_bodies DT_exact = Ok st1 /\
    step_verlet G_exact EPS2_exact st1 (- DT_exact) = Ok st2 /\
    map r st2 = map r setup_four_bodies /\ map v st2 = map v setup_four_bodies.
Proof.
  split; [exact EPS2_exact_pos|].
  destruct (step_verlet_reversible G_exact setup_four_bodies DT_exact EPS2_exact_pos)
    as (st1 & st2 & H1 & H2 & _ & Hr & Hv & _).
  exists st1, st2; repeat split; assumption.
Defined.

(** ** Motion of the centre of mass *)

Lemma sum_mr_same_but_a (st st' : list (Body R)) :
  same_but_a st st' -> sum_mr st' = sum_mr st.
Proof.
  unfold same_but_a; intros E.
  assert (Hs : forall l : list (Body R), sum_mr l = sum_mr (map reset_a l)).
  { intros l; rewrite !sum_mr_vsum, map_map; reflexivity. }
  rewrite (Hs st), (Hs st'); now rewrite E.
Qed.

Lemma sum_mr_kick (dt : R) (l : list (Body R)) : sum_mr (map (kick dt) l) = sum_mr l.
Proof. rewrite !sum_mr_vsum, map_map; reflexivity. Qed.

Lemma sum_mr_kick_drift (dt : R) (l : list (Body R)) :
  sum_mr (map (kick_drift dt) l)
  = v_add (sum_mr l)
      (v_scale dt (v_add (sum_mv l) (v_scale (/ 2 * dt) (force_sum l)))).
Proof.
  rewrite !sum_mr_vsum, sum_mv_vsum, map_map; unfold force_sum.
  induction l as [|b l IH]; cbn [map vsum].
  - vec_eq.
  - rewrite IH; apply vec2_ext; body_ops; ring.
Qed.

Section ExactCentreOfMass.
Variables (G EPS2 : R).
Hypothesis EPS2_pos : 0 < EPS2.

Lemma step_verlet_com (bs : list (Body R)) (dt : R) :
  nonzero_masses bs ->
  exists bs',
    step_verlet G EPS2 bs dt = Ok bs' /\
    sum_mr bs' = v_add (sum_mr bs) (v_scale dt (sum_mv bs)) /\
    sum_mv bs' = sum_mv bs /\ nonzero_masses bs'.
Proof.
  intros Hnz.
  destruct (step_verlet_momentum G EPS2_pos dt Hnz) as (bs' & Hrun & Hp & Hnz').
  exists bs'; split; [exact Hrun|].
  split; [|split; assumption].
  rewrite step_verlet_exact in Hrun by assumption.
  injection Hrun as <-.
  rewrite sum_mr_kick.
  rewrite (sum_mr_same_but_a (with_net_acc_frame G EPS2 _)).
  rewrite sum_mr_kick_drift, force_sum_with_net_acc by assumption.
  rewrite (sum_mr_same_but_a (with_net_acc_frame G EPS2 bs)).
  rewrite (sum_mv_same_but_a (with_net_acc_frame G EPS2 bs)).
  vec_eq.
Qed.

Lemma steps_com_at_rest (dts : list R) :
  forall bs : list (Body R),
    nonzero_masses bs -> sum_mr bs = v_zero -> sum_mv bs = v_zero ->
    exists bs', steps G EPS2 dts bs = Ok bs' /\
                sum_mr bs' = v_zero /\ sum_mv bs' = v_zero /\ nonzero_masses bs'.
Proof.
  unfold steps; induction dts as [|dt dts IH]; intros bs Hnz Hr Hv; cbn [for_each].
  - eauto.
  - destruct (step_verlet_com dt Hnz) as (bs1 & -> & Hr1 & Hv1 & Hnz1); cbn [bind].
    apply IH; [assumption| |congruence].
    rewrite Hr1, Hr, Hv; vec_eq.
Qed.
End ExactCentreOfMass.

(** X6: the centre of mass moves uniformly.  One step adds [dt] times the
    total momentum to the mass-weighted position sum; so after
    [to_com_frame] the centre of mass stays at the origin through any
    sequence of steps. *)
Theorem com_moves_uniformly (G EPS2 : R) (bs : list (Body R)) :
  0 < EPS2 -> nonzero_masses bs ->
  (forall dt, exists bs',
     step_verlet G EPS2 bs dt = Ok bs' /\
     sum_mr bs' = v_add (sum_mr bs) (v_scale dt (sum_mv bs))) /\
  (0 < sum_m bs ->
   exists bs0, to_com_frame bs = Ok bs0 /\
     forall dts, exists bsn,
       steps G EPS2 dts bs0 = Ok bsn /\ sum_mr bsn = v_zero /\ sum_mv bsn = v_zero).
Proof.
  intros He Hnz; split.
  - intros dt.
    destruct (step_verlet_com G He dt Hnz) as (bs' & Hrun & Hr & _); eauto.
  - intros HM.
    assert (Hne : bs <> []).
    { intros ->; unfold sum_m in HM; simpl in HM; lra. }
    assert (HM0 : sum_m bs <> 0) by lra.
    destruct (to_com_frame_sums Hne HM0) as (bs0 & Hrun & Hr & Hv).
    exists bs0; split; [exact Hrun|].
    intros dts.
    assert (Hnz0 : nonzero_masses bs0)
      by (eapply nonzero_masses_map_m; [eapply to_com_frame_m, Hrun | exact Hnz]).
    destruct (steps_com_at_rest G He dts Hnz0 Hr Hv) as (bsn & Hsteps & Hrn & Hvn & _).
    eauto.
Qed.

(** ** Angular momentum *)

Lemma Rsum_update {A : Type} (g : A -> R) (f : A -> A) (i : nat) (l : list A) (x : A) :
  nth_error l i = Some x ->
  Rsum (map g (update i f l)) = Rsum (map g l) + (g (f x) - g x).
Proof.
  revert i; induction l as [|y l IH]; intros [|i]; simpl; try discriminate.
  - intros [= ->]; lra.
  - intros Hi; rewrite (IH _ Hi); lra.
Qed.

Lemma Rsum_map_ext {A : Type} (f g : A -> R) (l : list A) :
  (forall x, In x l -> f x = g x) -> Rsum (map f l) = Rsum (map g l).
Proof.
  induction l as [|x l IH]; simpl; intros Hfg; [reflexivity|].
  rewrite Hfg, IH; auto.
Qed.

Section ExactAngularMomentum.
Variables (G EPS2 : R).
Hypothesis EPS2_pos : 0 < EPS2.

(** The pair force is central: it has no moment about the line joining
    the two bodies. *)
Lemma apply_pair_torque (st : list (Body R)) (i j : nat) :
  nonzero_masses st -> i <> j ->
  (i < List.length st)%nat -> (j < List.length st)%nat ->
  torque_sum (apply_pair G EPS2 st (i, j)) = torque_sum st.
Proof.
  intros Hnz Hij Hi Hj; unfold apply_pair, torque_sum.
  destruct (nth_error st i) as [bi|] eqn:Ei; [|reflexivity].
  destruct (nth_error st j) as [bj|] eqn:Ej; [|reflexivity].
  pose proof (nonzero_masses_nth _ Hnz Ei) as Hmi.
  pose proof (nonzero_masses_nth _ Hnz Ej) as Hmj.
  erewrite Rsum_update
    by (rewrite nth_error_update_neq by assumption; exact Ej).
  erewrite Rsum_update by exact Ei.
  unfold newton_force, cross; exact_ops.
  set (d3 := Rpower (dist2 EPS2 (r bi) (r bj)) (3 / 2)).
  assert (Hd3 : d3 <> 0) by (apply Rgt_not_eq; unfold d3, Rpower; apply exp_pos).
  field; auto.
Qed.

Lemma fold_pairs_torque (ps : list (nat * nat)) :
  forall st : list (Body R),
    nonzero_masses st ->
    (forall i j, In (i, j) ps ->
       i <> j /\ i < List.length st /\ j < List.length st)%nat ->
    torque_sum (fold_left (apply_pair G EPS2) ps st) = torque_sum st.
Proof.
  induction ps as [|[i j] ps IH]; intros st Hnz Hps; cbn [fold_left].
  - reflexivity.
  - destruct (Hps i j (or_introl eq_refl)) as (Hij & Hi & Hj).
    pose proof (apply_pair_frame G EPS2 st (i, j)) as Hfr.
    rewrite IH.
    + now apply apply_pair_torque.
    + eapply nonzero_masses_map_m; [apply same_but_a_m, Hfr | exact Hnz].
    + intros i' j' Hin; rewrite (same_but_a_length Hfr).
      apply Hps; now right.
Qed.

Lemma torque_sum_with_net_acc (bs : list (Body R)) :
  nonzero_masses bs -> torque_sum (with_net_acc G EPS2 bs) = 0.
Proof.
  intros Hnz; rewrite <- fold_pairs_closed_form.
  rewrite fold_pairs_torque.
  - unfold torque_sum; rewrite map_map.
    clear Hnz; induction bs as [|b bs IH]; cbn [map Rsum]; [reflexivity|].
    rewrite IH; unfold cross; exact_ops; ring.
  - eapply nonzero_masses_map_m; [apply same_but_a_m, reset_a_frame | exact Hnz].
  - intros i j Hin; apply in_pairs in Hin.
    rewrite length_map; lia.
Qed.

Lemma angular_momentum_same_but_a (st st' : list (Body R)) :
  same_but_a st st' -> angular_momentum st' = angular_momentum st.
Proof.
  unfold same_but_a; intros E.
  assert (Hs : forall l : list (Body R),
            angular_momentum l = angular_momentum (map reset_a l)).
  { intros l; unfold angular_momentum; rewrite map_map; reflexivity. }
  rewrite (Hs st), (Hs st'); now rewrite E.
Qed.

Lemma angular_momentum_kick (dt : R) (l : list (Body R)) :
  angular_momentum (map (kick dt) l) = angular_momentum l + / 2 * dt * torque_sum l.
Proof.
  unfold angular_momentum, torque_sum; rewrite map_map.
  induction l as [|b l IH]; cbn [map Rsum]; [ring|].
  rewrite IH; unfold cross; body_ops; ring.
Qed.

Lemma angular_momentum_kick_drift (dt : R) (l : list (Body R)) :
  angular_momentum (map (kick_drift dt) l) = angular_momentum l + / 2 * dt * torque_sum l.
Proof.
  unfold angular_momentum, torque_sum; rewrite map_map.
  induction l as [|b l IH]; cbn [map Rsum]; [ring|].
  rewrite IH; unfold cross; body_ops; ring.
Qed.

Lemma step_verlet_angular (bs : list (Body R)) (dt : R) :
  nonzero_masses bs ->
  exists bs',
    step_verlet G EPS2 bs dt = Ok bs' /\
    angular_momentum bs' = angular_momentum bs /\ nonzero_masses bs'.
Proof.
  intros Hnz.
  destruct (step_verlet_momentum G EPS2_pos dt Hnz) as (bs' & Hrun & _ & Hnz').
  exists bs'; split; [exact Hrun|]; split; [|exact Hnz'].
  rewrite step_verlet_exact in Hrun by assumption.
  injection Hrun as <-.
  set (s1 := with_net_acc G EPS2 bs).
  set (s2 := map (kick_drift dt) s1).
  assert (Hnz2 : nonzero_masses s2).
  { eapply nonzero_masses_map_m; [|exact Hnz].
    unfold s2; rewrite map_map.
    rewrite <- (same_but_a_m (with_net_acc_frame G EPS2 bs)).
    apply map_ext; reflexivity. }
  rewrite angular_momentum_kick, torque_sum_with_net_acc by assumption.
  rewrite (angular_momentum_same_but_a (with_net_acc_frame G EPS2 s2)).
  unfold s2; rewrite angular_momentum_kick_drift.
  unfold s1; rewrite torque_sum_with_net_acc by assumption.
  rewrite (angular_momentum_same_but_a (with_net_acc_frame G EPS2 bs)).
  ring.
Qed.

Lemma steps_angular (dts : list R) :
  forall bs : list (Body R),
    nonzero_masses bs ->
    exists bs', steps G EPS2 dts bs = Ok bs' /\
                angular_momentum bs' = angular_momentum bs.
Proof.
  unfold steps; induction dts as [|dt dts IH]; intros bs Hnz; cbn [for_each].
  - eauto.
  - destruct (step_verlet_angular dt Hnz) as (bs1 & -> & HL & Hnz1); cbn [bind].
    destruct (IH bs1 Hnz1) as (bs' & -> & HL').
    exists bs'; split; [reflexivity | congruence].
Qed.
End ExactAngularMomentum.

(** X7: the integrator conserves the total angular momentum
    [sum m_i * (r_i x v_i)] exactly, over any sequence of steps: the pair
    forces are central and both the kicks and the drift keep it. *)
Theorem angular_momentum_conserved (G EPS2 : R) (bs : list (Body R)) (dts : list R) :
  0 < EPS2 -> nonzero_masses bs ->
  exists bs', steps G EPS2 dts bs = Ok bs' /\
              angular_momentum bs' = angular_momentum bs.
Proof. intros He Hnz; now apply steps_angular. Qed.

(** * The two-body scenario *)

(** ** Outcome of the set-up, in any arithmetic *)

Section ScenarioErrors.
Context {F : Type} `{FloatOps F} `{PyFloatOps F}.
Variables (G m1 m2 D : F).

(** X8: [setup_two_bodies] validates nothing, and its outcome is decided by
    three computed values, in this order.  If [M = m1 + m2] is zero it
    raises [ZeroDivisionError]; otherwise an error of [D**3]
    ([OverflowError] on floats) is passed on; otherwise it raises
    [ZeroDivisionError] if [D**3] is zero (a zero or an underflowing [D]);
    otherwise [ValueError] if [G * M / D**3] is negative; in every other
    case it returns two bodies holding the masses as given, whatever their
    signs. *)
Theorem setup_two_bodies_errors :
  (f_is_zero (f_add m1 m2) = true ->
   setup_two_bodies G m1 m2 D = Raise ZeroDivisionError) /\
  (f_is_zero (f_add m1 m2) = false ->
   (forall e, float_pow3 D = Raise e -> setup_two_bodies G m1 m2 D = Raise e) /\
   (forall d3, float_pow3 D = Ok d3 ->
      (f_is_zero d3 = true ->
       setup_two_bodies G m1 m2 D = Raise ZeroDivisionError) /\
      (f_is_zero d3 = false ->
       (f_is_neg (f_div (f_mul G (f_add m1 m2)) d3) = true ->
        setup_two_bodies G m1 m2 D = Raise ValueError) /\
       (f_is_neg (f_div (f_mul G (f_add m1 m2)) d3) = false ->
        exists b1 b2,
          setup_two_bodies G m1 m2 D = Ok [b1; b2] /\
          m b1 = m1 /\ m b2 = m2 /\
          color b1 = "tab:orange"%string /\ color b2 = "tab:blue"%string)))).
Proof.
  unfold setup_two_bodies, float_truediv, math_sqrt.
  split; [intros ->; reflexivity|].
  intros ->; cbn [bind].
  split; [intros e ->; reflexivity|].
  intros d3 ->; cbn [bind].
  split; [intros ->; reflexivity|].
  intros ->; cbn [bind].
  split; [intros ->; reflexivity|].
  intros ->; cbn [bind].
  do 2 eexists; split; [reflexivity|].
  repeat split.
Qed.
End ScenarioErrors.

Lemma setup_two_bodies_errors_witness :
  setup_two_bodies G_b64 (b64_of_Z 1) (b64_of_Z (-1)) (b64_of_Z 6)
  = Raise ZeroDivisionError /\
  setup_two_bodies G_b64 (b64_of_Z 1) (b64_of_Z 3) b64_1e200 = Raise OverflowError /\
  setup_two_bodies G_b64 (b64_of_Z 1) (b64_of_Z 3) b64_1e_110 = Raise ZeroDivisionError /\
  setup_two_bodies G_b64 (b64_of_Z 1) (b64_of_Z 3) (b64_of_Z 0) = Raise ZeroDivisionError /\
  setup_two_bodies G_b64 (b64_of_Z 1) (b64_of_Z 3) (b64_of_Z (-6)) = Raise ValueError /\
  exists b1 b2,
    setup_two_bodies G_b64 (b64_of_Z (-1)) (b64_of_Z 3) (b64_of_Z 6) = Ok [b1; b2] /\
    m b1 = b64_of_Z (-1) /\ m b2 = b64_of_Z 3.
Proof.
  assert (HM : f_is_zero (f_add (b64_of_Z 1) (b64_of_Z 3)) = false)
    by (vm_compute; reflexivity).
  split.
  { destruct (setup_two_bodies_errors G_b64 (b64_of_Z 1) (b64_of_Z (-1)) (b64_of_Z 6))
      as (Hzero & _).
    apply Hzero; vm_compute; reflexivity. }
  split.
  { destruct (setup_two_bodies_errors G_b64 (b64_of_Z 1) (b64_of_Z 3) b64_1e200)
      as (_ & Hrun).
    apply (Hrun HM); vm_compute; reflexivity. }
  split.
  { destruct (setup_two_bodies_errors G_b64 (b64_of_Z 1) (b64_of_Z 3) b64_1e_110)
      as (_ & Hrun).
    destruct (Hrun HM) as (_ & Hcube).
    apply (Hcube (S754_zero false)); vm_compute; reflexivity. }
  split.
  { destruct (setup_two_bodies_errors G_b64 (b64_of_Z 1) (b64_of_Z 3) (b64_of_Z 0))
      as (_ & Hrun).
    destruct (Hrun HM) as (_ & Hcube).
    apply (Hcube (S754_zero false)); vm_compute; reflexivity. }
  split.
  { destruct (setup_two_bodies_errors G_b64 (b64_of_Z 1) (b64_of_Z 3) (b64_of_Z (-6)))
      as (_ & Hrun).
    destruct (Hrun HM) as (_ & Hcube).
    destruct (Hcube (b64_of_Z (-216))) as (_ & Hquot); [vm_compute; reflexivity|].
    apply Hquot; vm_compute; reflexivity. }
  destruct (setup_two_bodies_errors G_b64 (b64_of_Z (-1)) (b64_of_Z 3) (b64_of_Z 6))
    as (_ & Hrun).
  destruct Hrun as (_ & Hcube); [vm_compute; reflexivity|].
  destruct (Hcube (b64_of_Z 216)) as (_ & Hquot); [vm_compute; reflexivity|].
  destruct Hquot as (_ & Hret); [vm_compute; reflexivity|].
  destruct Hret as (b1 & b2 & Hok & Hm1 & Hm2 & _); [vm_compute; reflexivity|].
  exists b1, b2; repeat split; assumption.
Defined.

(** ** The scenario in exact arithmetic *)

Ltac scenario_ops :=
  unfold setup_two_bodies;
  cbn [f_zero f_add f_mul f_opp f_abs float_pow3 Exact ExactPy bind].

Lemma float_truediv_zero (x y : R) : y = 0 -> float_truediv x y = Raise ZeroDivisionError.
Proof.
  intros ->; unfold float_truediv; exact_ops.
  destruct (Req_dec_T 0 0); [reflexivity | contradiction].
Qed.

Lemma math_sqrt_neg (x : R) : x < 0 -> math_sqrt x = Raise ValueError.
Proof.
  intros Hx; unfold math_sqrt; exact_ops.
  destruct (Rlt_dec x 0); [reflexivity | contradiction].
Qed.

Lemma pow3_zero (D : R) : D ^ 3 = 0 <-> D = 0.
Proof.
  split; [|intros ->; ring].
  intros H; destruct (Req_dec_T D 0) as [|Hne]; [assumption|].
  exfalso; apply (pow_nonzero D 3 Hne H).
Qed.

(** What [setup_two_bodies] returns when nothing raises. *)
Lemma setup_two_bodies_value (G m1 m2 D : R) :
  m1 + m2 <> 0 -> D <> 0 -> 0 <= G * (m1 + m2) / D ^ 3 ->
  setup_two_bodies G m1 m2 D
  = Ok [Body_init (- D * (m2 / (m1 + m2))) 0 0
          (sqrt (G * (m1 + m2) / D ^ 3) * Rabs (- D * (m2 / (m1 + m2)))) m1 "tab:orange";
        Body_init (D * (m1 / (m1 + m2))) 0 0
          (- sqrt (G * (m1 + m2) / D ^ 3) * Rabs (D * (m1 / (m1 + m2)))) m2 "tab:blue"].
Proof.
  intros HM HD Hw; scenario_ops.
  assert (HD3 : D ^ 3 <> 0) by (rewrite pow3_zero; exact HD).
  rewrite !float_truediv_exact by assumption; scenario_ops.
  rewrite math_sqrt_exact by assumption; scenario_ops.
  reflexivity.
Qed.

(** In exact arithmetic the cube neither overflows nor underflows, and the
    failures are those of the inputs themselves. *)
Lemma setup_two_bodies_raises (G m1 m2 D : R) :
  (m1 + m2 = 0 -> setup_two_bodies G m1 m2 D = Raise ZeroDivisionError) /\
  (m1 + m2 <> 0 -> D = 0 -> setup_two_bodies G m1 m2 D = Raise ZeroDivisionError) /\
  (m1 + m2 <> 0 -> D <> 0 -> G * (m1 + m2) / D ^ 3 < 0 ->
   setup_two_bodies G m1 m2 D = Raise ValueError).
Proof.
  repeat split.
  - intros HM; scenario_ops.
    now rewrite (float_truediv_zero m2 HM).
  - intros HM HD; scenario_ops.
    rewrite !float_truediv_exact by assumption; scenario_ops.
    rewrite float_truediv_zero; [reflexivity | now apply pow3_zero].
  - intros HM HD Hw; scenario_ops.
    assert (HD3 : D ^ 3 <> 0) by (rewrite pow3_zero; exact HD).
    rewrite !float_truediv_exact by assumption; scenario_ops.
    now rewrite math_sqrt_neg.
Qed.

Lemma setup_two_bodies_Ok_inv (G m1 m2 D : R) (bs : list (Body R)) :
  setup_two_bodies G m1 m2 D = Ok bs ->
  m1 + m2 <> 0 /\ D <> 0 /\ 0 <= G * (m1 + m2) / D ^ 3.
Proof.
  intros Hrun.
  destruct (setup_two_bodies_raises G m1 m2 D) as (H1 & H2 & H3).
  destruct (Req_dec_T (m1 + m2) 0) as [HM|HM]; [rewrite H1 in Hrun; easy|].
  destruct (Req_dec_T D 0) as [HD|HD]; [rewrite H2 in Hrun; easy|].
  destruct (Rlt_dec (G * (m1 + m2) / D ^ 3) 0) as [Hw|Hw];
    [rewrite H3 in Hrun; easy|].
  repeat split; try assumption; lra.
Qed.

(** The script's own call, [setup_two_bodies(1.0, 3.0, 6.0)] with
    [G = 1.0], returns in exact arithmetic. *)
Lemma setup_two_bodies_script :
  exists bs, setup_two_bodies G_exact 1 3 6 = Ok bs.
Proof.
  eexists; apply setup_two_bodies_value; unfold G_exact; lra.
Defined.

(** X9: whenever [setup_two_bodies] returns (exact arithmetic), it returns
    two bodies, coloured orange and blue, with the masses given; they lie
    on the x axis exactly [D] apart with the centre of mass at the origin,
    their velocities are along the y axis, and the acceleration caches and
    trails are empty. *)
Theorem setup_two_bodies_layout (G m1 m2 D : R) (bs : list (Body R)) :
  setup_two_bodies G m1 m2 D = Ok bs ->
  exists b1 b2,
    bs = [b1; b2] /\
    m b1 = m1 /\ m b2 = m2 /\
    color b1 = "tab:orange"%string /\ color b2 = "tab:blue"%string /\
    c1 (r b1) = 0 /\ c1 (r b2) = 0 /\
    c0 (r b2) - c0 (r b1) = D /\
    sum_mr bs = v_zero /\
    c0 (v b1) = 0 /\ c0 (v b2) = 0 /\
    a b1 = v_zero /\ a b2 = v_zero /\ trail b1 = [] /\ trail b2 = [].
Proof.
  intros Hrun.
  destruct (setup_two_bodies_Ok_inv _ _ _ _ Hrun) as (HM & HD & Hw).
  rewrite setup_two_bodies_value in Hrun by assumption.
  injection Hrun as <-.
  do 2 eexists; split; [reflexivity|].
  cbn [Body_init r v m a trail color c0 c1].
  repeat split; try reflexivity.
  - field; assumption.
  - unfold sum_mr; cbn [fold_left Body_init r m].
    apply vec2_ext; exact_ops; [field; assumption | ring].
Qed.

Lemma setup_two_bodies_layout_witness :
  exists bs b1 b2,
    setup_two_bodies G_exact 1 3 6 = Ok bs /\
    bs = [b1; b2] /\
    color b1 = "tab:orange"%string /\ color b2 = "tab:blue"%string /\
    c0 (r b2) - c0 (r b1) = 6 /\ sum_mr bs = v_zero.
Proof.
  destruct setup_two_bodies_script as (bs & Hrun).
  destruct (@setup_two_bodies_layout G_exact 1 3 6 bs Hrun)
    as (b1 & b2 & E & _ & _ & Hc1 & Hc2 & _ & _ & Hsep & Hcom & _).
  exists bs, b1, b2.
  split; [exact Hrun|].
  split; [exact E|].
  split; [exact Hc1|]; split; [exact Hc2|].
  split; [exact Hsep | exact Hcom].
Defined.

(** The bodies returned for positive masses and separation, with the
    absolute values resolved. *)
Lemma setup_two_bodies_positive (G m1 m2 D : R) (bs : list (Body R)) :
  setup_two_bodies G m1 m2 D = Ok bs ->
  0 < m1 -> 0 < m2 -> 0 < D ->
  0 <= G * (m1 + m2) / D ^ 3 /\
  bs = [Body_init (- D * (m2 / (m1 + m2))) 0 0
          (sqrt (G * (m1 + m2) / D ^ 3) * (D * (m2 / (m1 + m2)))) m1 "tab:orange";
        Body_init (D * (m1 / (m1 + m2))) 0 0
          (- sqrt (G * (m1 + m2) / D ^ 3) * (D * (m1 / (m1 + m2)))) m2 "tab:blue"].
Proof.
  intros Hrun Hm1 Hm2 HD.
  destruct (setup_two_bodies_Ok_inv _ _ _ _ Hrun) as (HM & HD0 & Hw).
  rewrite setup_two_bodies_value in Hrun by assumption.
  injection Hrun as <-.
  split; [exact Hw|].
  assert (Hq1 : 0 < m2 / (m1 + m2)) by (apply Rdiv_lt_0_compat; lra).
  assert (Hq2 : 0 < m1 / (m1 + m2)) by (apply Rdiv_lt_0_compat; lra).
  assert (Ha1 : Rabs (- D * (m2 / (m1 + m2))) = D * (m2 / (m1 + m2))).
  { rewrite Rabs_left; [ring | nra]. }
  assert (Ha2 : Rabs (D * (m1 / (m1 + m2))) = D * (m1 / (m1 + m2))).
  { apply Rabs_pos_eq; nra. }
  rewrite Ha1, Ha2; reflexivity.
Qed.

(** X10: whenever [setup_two_bodies] returns for positive masses and
    separation (exact arithmetic), the scenario is a counter-rotating pair
    on the circular orbit of the unsoftened two-body problem: the
    velocities have no x component, body 1 moves towards +y and body 2
    towards -y, the squared relative speed times [D] is [G * M], and the
    squared speed of each body times [M * D] is [G] times the square of the
    other body's mass. *)
Theorem setup_two_bodies_circular (G m1 m2 D : R) (bs : list (Body R)) :
  setup_two_bodies G m1 m2 D = Ok bs ->
  0 < m1 -> 0 < m2 -> 0 < D ->
  exists b1 b2,
    bs = [b1; b2] /\
    c0 (v b1) = 0 /\ c0 (v b2) = 0 /\
    0 <= c1 (v b1) /\ c1 (v b2) <= 0 /\
    ((c0 (v b1) - c0 (v b2)) * (c0 (v b1) - c0 (v b2))
     + (c1 (v b1) - c1 (v b2)) * (c1 (v b1) - c1 (v b2))) * D = G * (m1 + m2) /\
    (c0 (v b1) * c0 (v b1) + c1 (v b1) * c1 (v b1)) * ((m1 + m2) * D) = G * (m2 * m2) /\
    (c0 (v b2) * c0 (v b2) + c1 (v b2) * c1 (v b2)) * ((m1 + m2) * D) = G * (m1 * m1).
Proof.
  intros Hrun Hm1 Hm2 HD.
  destruct (@setup_two_bodies_positive G m1 m2 D bs Hrun Hm1 Hm2 HD) as (Hw & ->).
  do 2 eexists; split; [reflexivity|].
  cbn [Body_init v c0 c1].
  set (w := sqrt (G * (m1 + m2) / D ^ 3)).
  assert (Hw0 : 0 <= w) by apply sqrt_pos.
  assert (Hww : w * w = G * (m1 + m2) / D ^ 3) by (apply sqrt_sqrt; exact Hw).
  assert (Hq1 : 0 < m2 / (m1 + m2)) by (apply Rdiv_lt_0_compat; lra).
  assert (Hq2 : 0 < m1 / (m1 + m2)) by (apply Rdiv_lt_0_compat; lra).
  assert (Hp1 : 0 <= D * (m2 / (m1 + m2))) by nra.
  assert (Hp2 : 0 <= D * (m1 / (m1 + m2))) by nra.
  split; [reflexivity|]; split; [reflexivity|].
  split; [now apply Rmult_le_pos|].
  split; [assert (0 <= w * (D * (m1 / (m1 + m2)))) by (now apply Rmult_le_pos); lra|].
  repeat split.
  - replace (((0 - 0) * (0 - 0)
              + (w * (D * (m2 / (m1 + m2))) - - w * (D * (m1 / (m1 + m2))))
                * (w * (D * (m2 / (m1 + m2))) - - w * (D * (m1 / (m1 + m2))))) * D)
      with (w * w * (D ^ 3)) by (field; lra).
    rewrite Hww; field; lra.
  - replace ((0 * 0 + w * (D * (m2 / (m1 + m2))) * (w * (D * (m2 / (m1 + m2)))))
             * ((m1 + m2) * D))
      with (w * w * (D ^ 3) * (m2 * m2) / (m1 + m2)) by (field; lra).
    rewrite Hww; field; lra.
  - replace ((0 * 0 + - w * (D * (m1 / (m1 + m2))) * (- w * (D * (m1 / (m1 + m2)))))
             * ((m1 + m2) * D))
      with (w * w * (D ^ 3) * (m1 * m1) / (m1 + m2)) by (field; lra).
    rewrite Hww; field; lra.
Qed.

Lemma setup_two_bodies_circular_witness :
  exists bs b1 b2,
    setup_two_bodies G_exact 1 3 6 = Ok bs /\ (0 < 1) /\ (0 < 3) /\ (0 < 6) /\
    bs = [b1; b2] /\
    ((c0 (v b1) - c0 (v b2)) * (c0 (v b1) - c0 (v b2))
     + (c1 (v b1) - c1 (v b2)) * (c1 (v b1) - c1 (v b2))) * 6 = G_exact * (1 + 3).
Proof.
  destruct setup_two_bodies_script as (bs & Hrun).
  assert (H1 : 0 < 1) by lra.
  assert (H3 : 0 < 3) by lra.
  assert (H6 : 0 < 6) by lra.
  destruct (@setup_two_bodies_circular G_exact 1 3 6 bs Hrun H1 H3 H6)
    as (b1 & b2 & E & _ & _ & _ & _ & Hrel & _).
  exists bs, b1, b2.
  split; [exact Hrun|].
  repeat (split; [assumption|]).
  exact Hrel.
Defined.

(** X11: whenever [setup_two_bodies] returns for positive masses and
    separation (exact arithmetic), the scenario is already in its
    centre-of-mass frame: total momentum and mass-weighted position are
    zero, so the [to_com_frame] call that follows it in the script returns
    the bodies unchanged. *)
Theorem setup_two_bodies_in_com_frame (G m1 m2 D : R) (bs : list (Body R)) :
  setup_two_bodies G m1 m2 D = Ok bs ->
  0 < m1 -> 0 < m2 -> 0 < D ->
  sum_mr bs = v_zero /\ sum_mv bs = v_zero /\
  to_com_frame bs = Ok bs.
Proof.
  intros Hrun Hm1 Hm2 HD.
  destruct (@setup_two_bodies_positive G m1 m2 D bs Hrun Hm1 Hm2 HD) as (Hw & ->).
  set (w := sqrt (G * (m1 + m2) / D ^ 3)).
  assert (Hr : sum_mr [Body_init (- D * (m2 / (m1 + m2))) 0 0
                         (w * (D * (m2 / (m1 + m2)))) m1 "tab:orange";
                       Body_init (D * (m1 / (m1 + m2))) 0 0
                         (- w * (D * (m1 / (m1 + m2)))) m2 "tab:blue"] = v_zero).
  { unfold sum_mr; cbn [fold_left Body_init r m].
    apply vec2_ext; exact_ops; [field; lra | ring]. }
  assert (Hv : sum_mv [Body_init (- D * (m2 / (m1 + m2))) 0 0
                         (w * (D * (m2 / (m1 + m2)))) m1 "tab:orange";
                       Body_init (D * (m1 / (m1 + m2))) 0 0
                         (- w * (D * (m1 / (m1 + m2)))) m2 "tab:blue"] = v_zero).
  { unfold sum_mv; cbn [fold_left Body_init v m].
    apply vec2_ext; exact_ops; [ring | field; lra]. }
  split; [exact Hr|]; split; [exact Hv|].
  rewrite to_com_frame_exact, Hr, Hv by discriminate.
  assert (Hz : forall M : R, v_divs (v_zero : vec2 R) M = v_zero)
    by (intros M; apply vec2_ext; exact_ops; unfold Rdiv; ring).
  rewrite !Hz; cbn [map]; now rewrite !shift_zero.
Qed.

Lemma setup_two_bodies_in_com_frame_witness :
  exists bs,
    setup_two_bodies G_exact 1 3 6 = Ok bs /\ (0 < 1) /\ (0 < 3) /\ (0 < 6) /\
    sum_mr bs = v_zero /\ sum_mv bs = v_zero /\ to_com_frame bs = Ok bs.
Proof.
  destruct setup_two_bodies_script as (bs & Hrun).
  assert (H1 : 0 < 1) by lra.
  assert (H3 : 0 < 3) by lra.
  assert (H6 : 0 < 6) by lra.
  destruct (@setup_two_bodies_in_com_frame G_exact 1 3 6 bs Hrun H1 H3 H6) as (Hr & Hv & Hcom).
  exists bs.
  split; [exact Hrun|].
  repeat (split; [assumption|]).
  exact Hcom.
Defined.

(** * The animation callback *)

(** ** The bounded trail *)

Lemma length_tl_snoc {A : Type} (d : list A) (x : A) :
  List.length (tl (d ++ [x])) = List.length d.
Proof. destruct d; simpl; [reflexivity | rewrite length_app; simpl; lia]. Qed.

Lemma length_deque_append {A : Type} (maxlen : nat) (d : list A) (x : A) :
  (List.length d <= maxlen)%nat ->
  List.length (deque_append maxlen d x) = Nat.min (List.length d + 1) maxlen.
Proof.
  intros Hd; unfold deque_append; rewrite length_app; cbn [List.length].
  destruct (maxlen <? List.length d + 1)%nat eqn:E.
  - apply Nat.ltb_lt in E; rewrite length_tl_snoc; lia.
  - apply Nat.ltb_ge in E; rewrite length_app; cbn [List.length]; lia.
Qed.

Lemma deque_append_window {A : Type} (maxlen : nat) (d : list A) (x : A) :
  (List.length d <= maxlen)%nat ->
  deque_append maxlen d x = skipn (List.length d + 1 - maxlen) (d ++ [x]).
Proof.
  intros Hd; unfold deque_append; rewrite length_app; cbn [List.length].
  destruct (maxlen <? List.length d + 1)%nat eqn:E.
  - apply Nat.ltb_lt in E.
    replace (List.length d + 1 - maxlen)%nat with 1%nat by lia.
    destruct (d ++ [x]); reflexivity.
  - apply Nat.ltb_ge in E.
    replace (List.length d + 1 - maxlen)%nat with 0%nat by lia.
    reflexivity.
Qed.

Lemma deque_append_last {A : Type} (maxlen : nat) (d : list A) (x : A) :
  (1 <= maxlen)%nat -> (List.length d <= maxlen)%nat ->
  exists t, deque_append maxlen d x = t ++ [x].
Proof.
  intros H1 Hd; rewrite deque_append_window by assumption.
  rewrite skipn_app.
  replace (List.length d + 1 - maxlen - List.length d)%nat with 0%nat by lia.
  eauto.
Qed.

(** ** The drawing loop *)

Lemma nth_error_middle {A : Type} (l l' : list A) (x : A) :
  nth_error (l ++ x :: l') (List.length l) = Some x.
Proof. induction l as [|y l IH]; simpl; auto. Qed.

Lemma update_middle {A : Type} (f : A -> A) (l l' : list A) (x : A) :
  update (List.length l) f (l ++ x :: l') = l ++ f x :: l'.
Proof. induction l as [|y l IH]; simpl; [reflexivity | now rewrite IH]. Qed.

Lemma modify_middle {A : Type} (f : A -> A) (l l' : list A) (x : A) :
  modify (l ++ x :: l') (List.length l) f = Ok (l ++ f x :: l').
Proof. unfold modify; now rewrite nth_error_middle, update_middle. Qed.

Lemma snoc_app {A : Type} (l l' : list A) (x : A) : l ++ x :: l' = (l ++ [x]) ++ l'.
Proof. now rewrite <- app_assoc. Qed.

Lemma pos_recorded {F : Type} (TRAIL_LEN : nat) (b : Body F) :
  pos (recorded TRAIL_LEN b) = pos b.
Proof. reflexivity. Qed.

Lemma draw_loop {F : Type} (TRAIL_LEN : nat) (todo_b : list (Body F)) :
  forall (todo_s : list (F * F)) (todo_l : list (list F * list F))
         (done_b : list (Body F)) (done_s : list (F * F))
         (done_l : list (list F * list F)),
    List.length done_s = List.length done_b ->
    List.length done_l = List.length done_b ->
    List.length todo_s = List.length todo_b ->
    List.length todo_l = List.length todo_b ->
    for_each (Anim.draw_body TRAIL_LEN)
      (seq (List.length done_b) (List.length todo_b))
      (Anim.mkScene (done_b ++ todo_b) (done_s ++ todo_s) (done_l ++ todo_l))
    = Ok (Anim.mkScene
            (done_b ++ map (recorded TRAIL_LEN) todo_b)
            (done_s ++ map pos todo_b)
            (done_l ++ map (fun p => line_shown (recorded TRAIL_LEN (fst p)) (snd p))
                         (combine todo_b todo_l))).
Proof.
  induction todo_b as [|b todo_b IH];
    intros [|s todo_s] [|l todo_l] done_b done_s done_l Hs Hl Hts Htl;
    simpl in Hts, Htl; try discriminate; cbn [List.length seq for_each].
  - reflexivity.
  - unfold Anim.draw_body at 1; cbn [Anim.bodies Anim.scatters Anim.lines].
    unfold getitem; rewrite nth_error_middle; cbn [bind].
    rewrite modify_middle; cbn [bind].
    rewrite <- Hs at 1; rewrite modify_middle; cbn [bind].
    fold (pos b); fold (recorded TRAIL_LEN b).
    assert (Hline :
      (if (2 <=? List.length (deque_append TRAIL_LEN (trail b) (pos b)))%nat
       then modify (done_l ++ l :: todo_l) (List.length done_b)
              (fun _ => split (deque_append TRAIL_LEN (trail b) (pos b)))
       else Ok (done_l ++ l :: todo_l))
      = Ok (done_l ++ line_shown (recorded TRAIL_LEN b) l :: todo_l)).
    { unfold line_shown, recorded, set_trail; cbn [trail].
      destruct (2 <=? List.length (deque_append TRAIL_LEN (trail b) (pos b)))%nat;
        [|reflexivity].
      rewrite <- Hl at 1; rewrite modify_middle; reflexivity. }
    rewrite Hline; cbn [bind].
    rewrite (snoc_app done_b), (snoc_app done_s), (snoc_app done_l).
    replace (S (List.length done_b)) with (List.length (done_b ++ [recorded TRAIL_LEN b]))
      by (rewrite length_app; simpl; lia).
    rewrite IH by (rewrite ?length_app; simpl; lia).
    cbn [map combine fst snd].
    now rewrite <- !snoc_app.
Qed.

Lemma draw_all {F : Type} (TRAIL_LEN : nat) (bs : list (Body F))
    (sc : list (F * F)) (ln : list (list F * list F)) :
  List.length sc = List.length bs -> List.length ln = List.length bs ->
  for_each (Anim.draw_body TRAIL_LEN) (seq 0 (List.length bs)) (Anim.mkScene bs sc ln)
  = Ok (Anim.mkScene (map (recorded TRAIL_LEN) bs) (map pos bs)
          (map (fun p => line_shown (recorded TRAIL_LEN (fst p)) (snd p)) (combine bs ln))).
Proof.
  intros Hs Hl.
  apply (draw_loop TRAIL_LEN bs sc ln [] [] []); auto.
Qed.

(** ** One frame *)

Lemma for_each_app {St A : Type} (body : St -> A -> result St) (l1 l2 : list A) (s : St) :
  for_each body (l1 ++ l2) s = (s' <- for_each body l1 s ;; for_each body l2 s').
Proof.
  revert s; induction l1 as [|x l1 IH]; simpl; intros s; [reflexivity|].
  destruct (body s x); simpl; auto.
Qed.

Lemma for_each_seq_shift {St : Type} (f : St -> result St) (n : nat) :
  forall (k : nat) (s : St),
    for_each (fun s0 (_ : nat) => f s0) (seq k n) s
    = for_each (fun s0 (_ : nat) => f s0) (seq 0 n) s.
Proof.
  induction n as [|n IH]; intros k s; cbn [seq for_each]; [reflexivity|].
  destruct (f s) as [s1|e]; cbn [bind]; [|reflexivity].
  now rewrite (IH (S k)), (IH 1%nat).
Qed.

Lemma substeps_are_steps {F : Type} `{FloatOps F} (G EPS2 DT : F) (n : nat) :
  forall (k : nat) (bs : list (Body F)),
    for_each (fun bs0 (_ : nat) => step_verlet G EPS2 bs0 DT) (seq k n) bs
    = steps G EPS2 (repeat DT n) bs.
Proof.
  unfold steps; induction n as [|n IH]; intros k bs; cbn [seq repeat for_each];
    [reflexivity|].
  destruct (step_verlet G EPS2 bs DT); cbn [bind]; [apply IH | reflexivity].
Qed.

Section FrameGeneric.
Context {F : Type} `{FloatOps F}.
Variables (G EPS2 DT : F) (SUBSTEPS TRAIL_LEN : nat).

Lemma same_but_a_labels (bs st : list (Body F)) :
  same_but_a bs st -> same_labels bs st.
Proof.
  unfold same_but_a, same_labels; intros E.
  assert (Hl : forall l : list (Body F),
            map (fun b => (m b, color b, trail b)) l
            = map (fun b => (m b, color b, trail b)) (map reset_a l)).
  { intros l; rewrite map_map; apply map_ext; intros []; reflexivity. }
  rewrite (Hl bs), (Hl st); now rewrite E.
Qed.

Lemma step_verlet_labels (bs st : list (Body F)) (dt : F) :
  step_verlet G EPS2 bs dt = Ok st -> same_labels bs st.
Proof.
  unfold step_verlet; intros Hrun.
  apply bind_Ok_inv in Hrun as (s1 & H1 & Hrun).
  apply bind_Ok_inv in Hrun as (s3 & H3 & Hrun).
  injection Hrun as <-.
  apply accelerations_frame, same_but_a_labels in H1, H3.
  unfold same_labels in *.
  assert (Hk : forall f : Body F -> Body F,
            (forall b, (m (f b), color (f b), trail (f b)) = (m b, color b, trail b)) ->
            forall l, map (fun b => (m b, color b, trail b)) (map f l)
                      = map (fun b => (m b, color b, trail b)) l).
  { intros f Hf l; rewrite map_map; apply map_ext, Hf. }
  rewrite Hk by reflexivity.
  rewrite H3, Hk by reflexivity.
  exact H1.
Qed.

Lemma steps_labels (dts : list F) (bs st : list (Body F)) :
  steps G EPS2 dts bs = Ok st -> same_labels bs st.
Proof.
  unfold steps.
  apply for_each_invariant with (P := same_labels bs).
  - intros s dt s' Hs Hstep; apply step_verlet_labels in Hstep.
    unfold same_labels in *; congruence.
  - reflexivity.
Qed.

Lemma same_labels_length (bs st : list (Body F)) :
  same_labels bs st -> List.length st = List.length bs.
Proof.
  unfold same_labels; intros E.
  rewrite <- (length_map (fun b => (m b, color b, trail b)) st), E; apply length_map.
Qed.

Lemma combine_map_l {A B C : Type} (f : A -> B) (l : list A) (l' : list C) :
  combine (map f l) l' = map (fun p => (f (fst p), snd p)) (combine l l').
Proof.
  revert l'; induction l as [|x l IH]; intros [|y l']; simpl; [reflexivity..|].
  now rewrite IH.
Qed.

(** [update], in closed form. *)
Lemma update_closed_form (w : Anim.Scene F) :
  scene_ok w ->
  Anim.update G EPS2 DT SUBSTEPS TRAIL_LEN w
  = (bs1 <- steps G EPS2 (repeat DT SUBSTEPS) (Anim.bodies w) ;;
     Ok (Anim.mkScene (map (recorded TRAIL_LEN) bs1)
           (map pos (map (recorded TRAIL_LEN) bs1))
           (map (fun p => line_shown (fst p) (snd p))
              (combine (map (recorded TRAIL_LEN) bs1) (Anim.lines w))))).
Proof.
  intros [Hs Hl]; unfold Anim.update.
  rewrite substeps_are_steps.
  destruct (steps G EPS2 (repeat DT SUBSTEPS) (Anim.bodies w)) as [bs1|e] eqn:E;
    cbn [bind]; [|reflexivity].
  pose proof (same_labels_length (steps_labels _ _ E)) as Hlen.
  rewrite draw_all by congruence.
  rewrite combine_map_l, !map_map; reflexivity.
Qed.

Lemma recorded_relates (bs bs1 : list (Body F)) :
  same_labels bs bs1 ->
  Forall (fun b => List.length (trail b) <= TRAIL_LEN)%nat bs ->
  Forall2 (fun b b' =>
             m b' = m b /\ color b' = color b /\
             trail b' = skipn (List.length (trail b) + 1 - TRAIL_LEN) (trail b ++ [pos b']) /\
             List.length (trail b') = Nat.min (List.length (trail b) + 1) TRAIL_LEN)
    bs (map (recorded TRAIL_LEN) bs1).
Proof.
  unfold same_labels; revert bs1.
  induction bs as [|b bs IH]; intros [|b1 bs1] E Hb; simpl in E; try discriminate;
    cbn [map]; constructor.
  - injection E as Em Ec Et _.
    inversion Hb as [|? ? Hlen _]; subst.
    change (pos (recorded TRAIL_LEN b1)) with (pos b1).
    unfold recorded, set_trail; cbn [m color trail].
    rewrite Et.
    repeat split; try assumption.
    + now apply deque_append_window.
    + now apply length_deque_append.
  - injection E as _ _ _ E; inversion Hb; subst; now apply IH.
Qed.
End FrameGeneric.

Section FrameProperties.
Context {F : Type} `{FloatOps F}.
Variables (G EPS2 DT : F) (SUBSTEPS TRAIL_LEN : nat).

Lemma same_labels_trail (bs st : list (Body F)) :
  same_labels bs st -> map trail st = map trail bs.
Proof.
  unfold same_labels; intros E.
  apply (f_equal (map snd)) in E; rewrite !map_map in E; exact E.
Qed.

Lemma same_labels_m (bs st : list (Body F)) :
  same_labels bs st -> map m st = map m bs.
Proof.
  unfold same_labels; intros E.
  apply (f_equal (map (fun t : F * string * list (F * F) => fst (fst t)))) in E.
  rewrite !map_map in E; exact E.
Qed.

Lemma trail_bounded_map_trail (bs st : list (Body F)) :
  map trail st = map trail bs -> trail_bounded TRAIL_LEN bs -> trail_bounded TRAIL_LEN st.
Proof.
  unfold trail_bounded; intros E Hb.
  apply (Forall_map trail (fun t => List.length t <= TRAIL_LEN)%nat) in Hb.
  apply (Forall_map trail (fun t => List.length t <= TRAIL_LEN)%nat).
  now rewrite E.
Qed.

Lemma trail_lengths_recorded (bs1 : list (Body F)) :
  trail_bounded TRAIL_LEN bs1 ->
  map (fun b => List.length (trail b)) (map (recorded TRAIL_LEN) bs1)
  = map (fun b => Nat.min (List.length (trail b) + 1) TRAIL_LEN) bs1.
Proof.
  unfold trail_bounded; rewrite Forall_forall; intros Hb.
  rewrite map_map; apply map_ext_in; intros b Hin.
  unfold recorded, set_trail; cbn [trail].
  apply length_deque_append, Hb, Hin.
Qed.

Lemma trail_bounded_recorded (bs1 : list (Body F)) :
  trail_bounded TRAIL_LEN bs1 -> trail_bounded TRAIL_LEN (map (recorded TRAIL_LEN) bs1).
Proof.
  unfold trail_bounded; rewrite !Forall_forall; intros Hb b' Hin.
  apply in_map_iff in Hin as (b & <- & Hin).
  unfold recorded, set_trail; cbn [trail].
  rewrite length_deque_append by (apply Hb, Hin); lia.
Qed.

Lemma map_on_trail {A : Type} (g : list (F * F) -> A) (bs st : list (Body F)) :
  map trail st = map trail bs ->
  map (fun b => g (trail b)) st = map (fun b => g (trail b)) bs.
Proof.
  intros E; rewrite <- (map_map trail g st), <- (map_map trail g bs); now rewrite E.
Qed.

(** What a successful [update] has done. *)
Lemma update_Ok_inv (w w' : Anim.Scene F) :
  scene_ok w -> trail_bounded TRAIL_LEN (Anim.bodies w) ->
  Anim.update G EPS2 DT SUBSTEPS TRAIL_LEN w = Ok w' ->
  exists bs1,
    steps G EPS2 (repeat DT SUBSTEPS) (Anim.bodies w) = Ok bs1 /\
    same_labels (Anim.bodies w) bs1 /\
    Anim.bodies w' = map (recorded TRAIL_LEN) bs1 /\
    Anim.scatters w' = map pos (Anim.bodies w') /\
    Anim.lines w'
    = map (fun p => line_shown (fst p) (snd p)) (combine (Anim.bodies w') (Anim.lines w)) /\
    scene_ok w' /\ trail_bounded TRAIL_LEN (Anim.bodies w').
Proof.
  intros Hok Hb Hrun; rewrite update_closed_form in Hrun by assumption.
  apply bind_Ok_inv in Hrun as (bs1 & Hsteps & Hrun).
  injection Hrun as <-.
  pose proof (steps_labels _ _ _ _ Hsteps) as Hlab.
  pose proof (same_labels_length Hlab) as Hlen.
  exists bs1; cbn [Anim.bodies Anim.scatters Anim.lines].
  split; [exact Hsteps|].
  split; [exact Hlab|].
  split; [reflexivity|].
  split; [reflexivity|].
  split; [reflexivity|].
  split.
  - destruct Hok as [_ Hl]; unfold scene_ok; cbn [Anim.bodies Anim.scatters Anim.lines].
    split; [now rewrite !length_map|].
    rewrite length_map, length_combine, !length_map, Hl, Hlen.
    apply Nat.min_id.
  - apply trail_bounded_recorded.
    eapply trail_bounded_map_trail; [apply same_labels_trail, Hlab | exact Hb].
Qed.

(** X12: one [update] call advances the bodies by [SUBSTEPS] steps of
    [DT], then for every body appends its new position to its trail
    (dropping the oldest entry when the trail already holds [TRAIL_LEN]),
    moves its scatter to that position, and redraws its line from the
    trail when the trail has at least two points; masses and colours are
    kept. *)
Theorem update_records (w w' : Anim.Scene F) :
  scene_ok w -> trail_bounded TRAIL_LEN (Anim.bodies w) ->
  Anim.update G EPS2 DT SUBSTEPS TRAIL_LEN w = Ok w' ->
  exists bs1,
    steps G EPS2 (repeat DT SUBSTEPS) (Anim.bodies w) = Ok bs1 /\
    Anim.bodies w' = map (recorded TRAIL_LEN) bs1 /\
    Anim.scatters w' = map pos (Anim.bodies w') /\
    Anim.lines w'
    = map (fun p => line_shown (fst p) (snd p)) (combine (Anim.bodies w') (Anim.lines w)) /\
    scene_ok w' /\
    Forall2 (fun b b' =>
               m b' = m b /\ color b' = color b /\
               trail b' = skipn (List.length (trail b) + 1 - TRAIL_LEN)
                            (trail b ++ [pos b']) /\
               List.length (trail b') = Nat.min (List.length (trail b) + 1) TRAIL_LEN)
      (Anim.bodies w) (Anim.bodies w').
Proof.
  intros Hok Hb Hrun.
  destruct (update_Ok_inv Hok Hb Hrun) as (bs1 & Hsteps & Hlab & Hbs & Hsc & Hln & Hok' & _).
  exists bs1; repeat split; try assumption; try apply Hok'.
  rewrite Hbs; now apply recorded_relates.
Qed.

(** ** Many frames *)

Lemma frames_S_first (n : nat) (w : Anim.Scene F) :
  Anim.frames G EPS2 DT SUBSTEPS TRAIL_LEN (S n) w
  = (w1 <- Anim.update G EPS2 DT SUBSTEPS TRAIL_LEN w ;;
     Anim.frames G EPS2 DT SUBSTEPS TRAIL_LEN n w1).
Proof.
  unfold Anim.frames; cbn [seq for_each].
  destruct (Anim.update G EPS2 DT SUBSTEPS TRAIL_LEN w); cbn [bind]; [|reflexivity].
  apply for_each_seq_shift.
Qed.

Lemma frames_S_last (n : nat) (w : Anim.Scene F) :
  Anim.frames G EPS2 DT SUBSTEPS TRAIL_LEN (S n) w
  = (w1 <- Anim.frames G EPS2 DT SUBSTEPS TRAIL_LEN n w ;;
     Anim.update G EPS2 DT SUBSTEPS TRAIL_LEN w1).
Proof.
  unfold Anim.frames; rewrite seq_S, for_each_app.
  destruct (for_each _ (seq 0 n) w); cbn [bind for_each]; [|reflexivity].
  destruct (Anim.update G EPS2 DT SUBSTEPS TRAIL_LEN x); reflexivity.
Qed.

Lemma frames_invariant (n : nat) :
  forall w w' : Anim.Scene F,
    scene_ok w -> trail_bounded TRAIL_LEN (Anim.bodies w) ->
    Anim.frames G EPS2 DT SUBSTEPS TRAIL_LEN n w = Ok w' ->
    scene_ok w' /\ trail_bounded TRAIL_LEN (Anim.bodies w') /\
    map m (Anim.bodies w') = map m (Anim.bodies w) /\
    map (fun b => List.length (trail b)) (Anim.bodies w')
    = map (fun b => Nat.min (List.length (trail b) + n) TRAIL_LEN) (Anim.bodies w).
Proof.
  induction n as [|n IH]; intros w w' Hok Hb Hrun.
  - injection Hrun as <-.
    repeat split; try assumption; try apply Hok.
    apply map_ext_in; intros b Hin.
    unfold trail_bounded in Hb; rewrite Forall_forall in Hb.
    specialize (Hb b Hin); lia.
  - rewrite frames_S_first in Hrun.
    apply bind_Ok_inv in Hrun as (w1 & Hup & Hrun).
    destruct (update_Ok_inv Hok Hb Hup)
      as (bs1 & Hsteps & Hlab & Hbs & _ & _ & Hok1 & Hb1).
    destruct (IH w1 w' Hok1 Hb1 Hrun) as (Hok' & Hb' & Hm' & Hlen').
    split; [exact Hok'|]; split; [exact Hb'|]; split.
    + rewrite Hm', Hbs, map_map; cbn [recorded set_trail m].
      apply same_labels_m, Hlab.
    + rewrite Hlen', Hbs.
      assert (Hb1' : trail_bounded TRAIL_LEN bs1)
        by (eapply trail_bounded_map_trail; [apply same_labels_trail, Hlab | exact Hb]).
      rewrite <- (map_map (fun b => List.length (trail b))
                    (fun k => Nat.min (k + n) TRAIL_LEN)).
      rewrite trail_lengths_recorded, map_map by assumption.
      rewrite (map_on_trail (fun t => Nat.min (Nat.min (List.length t + 1) TRAIL_LEN + n)
                                        TRAIL_LEN)
                 (Anim.bodies w) bs1 (same_labels_trail Hlab)).
      apply map_ext; intros b; lia.
Qed.

(** X13: the trails are bounded.  After [n] frames every trail holds
    [min (len + n) TRAIL_LEN] points, where [len] is what it held before,
    so never more than [TRAIL_LEN]; and once a frame has been drawn (with
    [TRAIL_LEN >= 1]) the last point of every trail is the body's current
    position. *)
Theorem frames_trail_length (n : nat) (w w' : Anim.Scene F) :
  scene_ok w -> trail_bounded TRAIL_LEN (Anim.bodies w) ->
  Anim.frames G EPS2 DT SUBSTEPS TRAIL_LEN n w = Ok w' ->
  map (fun b => List.length (trail b)) (Anim.bodies w')
  = map (fun b => Nat.min (List.length (trail b) + n) TRAIL_LEN) (Anim.bodies w) /\
  trail_bounded TRAIL_LEN (Anim.bodies w') /\
  (1 <= n -> 1 <= TRAIL_LEN ->
   Forall (fun b' => exists t, trail b' = t ++ [pos b']) (Anim.bodies w'))%nat.
Proof.
  intros Hok Hb Hrun.
  destruct (frames_invariant n Hok Hb Hrun) as (_ & Hb' & _ & Hlen).
  split; [exact Hlen|]; split; [exact Hb'|].
  intros Hn HT; destruct n as [|n]; [lia|].
  rewrite frames_S_last in Hrun.
  apply bind_Ok_inv in Hrun as (w1 & Hrun1 & Hup).
  destruct (frames_invariant n Hok Hb Hrun1) as (Hok1 & Hb1 & _ & _).
  destruct (update_Ok_inv Hok1 Hb1 Hup) as (bs1 & _ & Hlab & Hbs & _).
  assert (Hbb : trail_bounded TRAIL_LEN bs1)
    by (eapply trail_bounded_map_trail; [apply same_labels_trail, Hlab | exact Hb1]).
  rewrite Hbs; apply Forall_forall; intros b' Hin.
  apply in_map_iff in Hin as (b & <- & Hin).
  unfold trail_bounded in Hbb; rewrite Forall_forall in Hbb.
  change (pos (recorded TRAIL_LEN b)) with (pos b).
  unfold recorded, set_trail; cbn [trail].
  apply deque_append_last; [exact HT | apply Hbb, Hin].
Qed.
End FrameProperties.

(** ** When the lines are drawn *)

Lemma lines_kept {F : Type} (bs' : list (Body F)) :
  forall ln : list (list F * list F),
    List.length ln = List.length bs' ->
    Forall (fun b' => List.length (trail b') < 2)%nat bs' ->
    map (fun p => line_shown (fst p) (snd p)) (combine bs' ln) = ln.
Proof.
  induction bs' as [|b' bs' IH]; intros [|l ln] Hlen Hb; simpl in Hlen;
    try discriminate; [reflexivity|].
  inversion Hb as [|? ? Hlt Hb']; subst.
  cbn [combine map fst snd]; rewrite IH by (assumption || lia).
  unfold line_shown.
  replace (2 <=? List.length (trail b'))%nat with false
    by (symmetry; apply Nat.leb_gt; exact Hlt).
  reflexivity.
Qed.

Lemma lines_redrawn {F : Type} (bs' : list (Body F)) :
  forall ln : list (list F * list F),
    List.length ln = List.length bs' ->
    Forall (fun b' => 2 <= List.length (trail b'))%nat bs' ->
    map (fun p => line_shown (fst p) (snd p)) (combine bs' ln)
    = map (fun b' => split (trail b')) bs'.
Proof.
  induction bs' as [|b' bs' IH]; intros [|l ln] Hlen Hb; simpl in Hlen;
    try discriminate; [reflexivity|].
  inversion Hb as [|? ? Hge Hb']; subst.
  cbn [combine map fst snd]; rewrite IH by (assumption || lia).
  unfold line_shown.
  replace (2 <=? List.length (trail b'))%nat with true
    by (symmetry; apply Nat.leb_le; exact Hge).
  reflexivity.
Qed.

Lemma Forall_of_map_eq {A B C : Type} (f : A -> C) (g : B -> C) (P : C -> Prop)
    (l' : list A) (l : list B) :
  map f l' = map g l -> Forall (fun x => P (g x)) l -> Forall (fun x' => P (f x')) l'.
Proof.
  intros E Hl.
  apply (Forall_map g P) in Hl; apply (Forall_map f P); now rewrite E.
Qed.

Lemma init_scene_ok {F : Type} (TRAIL_LEN : nat) (bs0 : list (Body F)) :
  Forall (fun b => trail b = []) bs0 ->
  scene_ok (Anim.init_scene bs0) /\ trail_bounded TRAIL_LEN (Anim.bodies (Anim.init_scene bs0)).
Proof.
  intros Hfresh; unfold scene_ok, Anim.init_scene;
    cbn [Anim.bodies Anim.scatters Anim.lines].
  rewrite !length_map; repeat split.
  unfold trail_bounded; eapply Forall_impl; [|exact Hfresh].
  intros b ->; simpl; lia.
Qed.

Section LineProperties.
Context {F : Type} `{FloatOps F}.
Variables (G EPS2 DT : F) (SUBSTEPS TRAIL_LEN : nat).

Lemma frames_lines_kept (n : nat) :
  forall (bs0 : list (Body F)) (w' : Anim.Scene F),
    Forall (fun b => trail b = []) bs0 ->
    (n <= 1 \/ TRAIL_LEN <= 1)%nat ->
    Anim.frames G EPS2 DT SUBSTEPS TRAIL_LEN n (Anim.init_scene bs0) = Ok w' ->
    Anim.lines w' = map (fun _ => ([], [])) bs0.
Proof.
  induction n as [|n IH]; intros bs0 w' Hfresh Hc Hrun.
  - injection Hrun as <-; reflexivity.
  - destruct (init_scene_ok TRAIL_LEN Hfresh) as [Hok0 Hb0].
    rewrite frames_S_last in Hrun.
    apply bind_Ok_inv in Hrun as (w1 & Hrun1 & Hup).
    assert (Hc' : (n <= 1 \/ TRAIL_LEN <= 1)%nat) by lia.
    pose proof (IH bs0 w1 Hfresh Hc' Hrun1) as Hl1.
    destruct (@frames_invariant F _ G EPS2 DT SUBSTEPS TRAIL_LEN n _ _ Hok0 Hb0 Hrun1) as (Hok1 & Hb1 & _ & _).
    assert (Hrun : Anim.frames G EPS2 DT SUBSTEPS TRAIL_LEN (S n) (Anim.init_scene bs0)
                   = Ok w')
      by (rewrite frames_S_last, Hrun1; exact Hup).
    destruct (@frames_invariant F _ G EPS2 DT SUBSTEPS TRAIL_LEN (S n) _ _ Hok0 Hb0 Hrun)
      as (_ & _ & _ & Hlen).
    destruct (@update_Ok_inv F _ G EPS2 DT SUBSTEPS TRAIL_LEN w1 w' Hok1 Hb1 Hup)
      as (bs1 & _ & Hlab & Hbs & _ & Hln & _).
    rewrite Hln, lines_kept; [exact Hl1| |].
    + rewrite Hbs, length_map, (same_labels_length Hlab); apply Hok1.
    + apply Forall_of_map_eq
        with (f := fun b : Body F => List.length (trail b))
             (g := fun b : Body F => Nat.min (List.length (trail b) + S n) TRAIL_LEN)
             (P := fun k => (k < 2)%nat) (l := bs0); [exact Hlen|].
      eapply Forall_impl; [|exact Hfresh].
      intros b ->; cbn [List.length]; lia.
Qed.
End LineProperties.

(** X14: a line is drawn only once its trail has two points.  Starting
    from fresh bodies, the lines are still empty after the first frame
    (and stay empty for ever if [TRAIL_LEN <= 1]); from the second frame
    on (with [TRAIL_LEN >= 2]) every line shows its body's whole trail,
    [min n TRAIL_LEN] points after [n] frames. *)
Theorem lines_follow_trails {F : Type} `{FloatOps F} (G EPS2 DT : F)
    (SUBSTEPS TRAIL_LEN n : nat) (bs0 : list (Body F)) (w' : Anim.Scene F) :
  Forall (fun b => trail b = []) bs0 ->
  Anim.frames G EPS2 DT SUBSTEPS TRAIL_LEN n (Anim.init_scene bs0) = Ok w' ->
  ((n <= 1 \/ TRAIL_LEN <= 1)%nat -> Anim.lines w' = map (fun _ => ([], [])) bs0) /\
  ((2 <= n)%nat -> (2 <= TRAIL_LEN)%nat ->
   Anim.lines w' = map (fun b' => split (trail b')) (Anim.bodies w') /\
   Forall (fun l => List.length (fst l) = Nat.min n TRAIL_LEN /\
                    List.length (snd l) = Nat.min n TRAIL_LEN) (Anim.lines w')).
Proof.
  intros Hfresh Hrun; split.
  - intros Hc; eapply frames_lines_kept; eassumption.
  - intros Hn HT.
    destruct (init_scene_ok TRAIL_LEN Hfresh) as [Hok0 Hb0].
    destruct (@frames_invariant F _ G EPS2 DT SUBSTEPS TRAIL_LEN n _ _ Hok0 Hb0 Hrun) as (_ & _ & _ & Hlen).
    assert (Hlens : Forall (fun b' => List.length (trail b') = Nat.min n TRAIL_LEN)
                      (Anim.bodies w')).
    { apply Forall_of_map_eq
        with (f := fun b : Body F => List.length (trail b))
             (g := fun b : Body F => Nat.min (List.length (trail b) + n) TRAIL_LEN)
             (P := fun k => k = Nat.min n TRAIL_LEN) (l := bs0); [exact Hlen|].
      eapply Forall_impl; [|exact Hfresh].
      intros b ->; reflexivity. }
    destruct n as [|n]; [lia|].
    rewrite frames_S_last in Hrun.
    apply bind_Ok_inv in Hrun as (w1 & Hrun1 & Hup).
    destruct (@frames_invariant F _ G EPS2 DT SUBSTEPS TRAIL_LEN n _ _ Hok0 Hb0 Hrun1) as (Hok1 & Hb1 & _ & _).
    destruct (@update_Ok_inv F _ G EPS2 DT SUBSTEPS TRAIL_LEN w1 w' Hok1 Hb1 Hup)
      as (bs1 & _ & Hlab & Hbs & _ & Hln & _).
    assert (Hredraw : Anim.lines w' = map (fun b' => split (trail b')) (Anim.bodies w')).
    { rewrite Hln; apply lines_redrawn.
      - rewrite Hbs, length_map, (same_labels_length Hlab); apply Hok1.
      - eapply Forall_impl; [|exact Hlens].
        intros b' ->; lia. }
    split; [exact Hredraw|].
    rewrite Hredraw; apply Forall_map.
    eapply Forall_impl; [|exact Hlens].
    intros b' Hb'; rewrite length_fst_split, length_snd_split; auto.
Qed.

(** ** Conservation laws across frames, in exact arithmetic *)

Lemma sums_recorded (TRAIL_LEN : nat) (l : list (Body R)) :
  sum_mv (map (recorded TRAIL_LEN) l) = sum_mv l /\
  sum_mr (map (recorded TRAIL_LEN) l) = sum_mr l /\
  angular_momentum (map (recorded TRAIL_LEN) l) = angular_momentum l /\
  map m (map (recorded TRAIL_LEN) l) = map m l.
Proof.
  rewrite !sum_mv_vsum, !sum_mr_vsum; unfold angular_momentum.
  rewrite !map_map; repeat split.
Qed.

Section ExactFrames.
Variables (G EPS2 DT : R) (SUBSTEPS TRAIL_LEN : nat).
Hypothesis EPS2_pos : 0 < EPS2.

Lemma update_exact (w : Anim.Scene R) :
  nonzero_masses (Anim.bodies w) -> scene_ok w ->
  trail_bounded TRAIL_LEN (Anim.bodies w) ->
  exists w',
    Anim.update G EPS2 DT SUBSTEPS TRAIL_LEN w = Ok w' /\
    nonzero_masses (Anim.bodies w') /\ scene_ok w' /\
    trail_bounded TRAIL_LEN (Anim.bodies w') /\
    sum_mv (Anim.bodies w') = sum_mv (Anim.bodies w) /\
    angular_momentum (Anim.bodies w') = angular_momentum (Anim.bodies w) /\
    (sum_mr (Anim.bodies w) = v_zero -> sum_mv (Anim.bodies w) = v_zero ->
     sum_mr (Anim.bodies w') = v_zero).
Proof.
  intros Hnz Hok Hb.
  destruct (steps_momentum G EPS2_pos (repeat DT SUBSTEPS) Hnz) as (bs1 & Hsteps & Hp).
  destruct (steps_angular G EPS2_pos (repeat DT SUBSTEPS) Hnz) as (bs2 & Hsteps2 & HL).
  rewrite Hsteps in Hsteps2; injection Hsteps2 as <-.
  destruct (sums_recorded TRAIL_LEN bs1) as (Ev & Er & EL & Em).
  assert (Hrun : Anim.update G EPS2 DT SUBSTEPS TRAIL_LEN w
                 = Ok (Anim.mkScene (map (recorded TRAIL_LEN) bs1)
                         (map pos (map (recorded TRAIL_LEN) bs1))
                         (map (fun p => line_shown (fst p) (snd p))
                            (combine (map (recorded TRAIL_LEN) bs1) (Anim.lines w)))))
    by (rewrite update_closed_form, Hsteps by assumption; reflexivity).
  eexists; split; [exact Hrun|].
  destruct (@update_Ok_inv R _ G EPS2 DT SUBSTEPS TRAIL_LEN w _ Hok Hb Hrun)
    as (bs1' & _ & _ & _ & _ & _ & Hok' & Hb').
  cbn [Anim.bodies] in *.
  split.
  { eapply nonzero_masses_map_m; [|exact Hnz].
    rewrite Em; eapply same_labels_m, steps_labels; exact Hsteps. }
  split; [exact Hok'|]; split; [exact Hb'|].
  split; [congruence|]; split; [congruence|].
  intros Hr0 Hv0.
  destruct (steps_com_at_rest G EPS2_pos (repeat DT SUBSTEPS) Hnz Hr0 Hv0)
    as (bs3 & Hsteps3 & Hr3 & _).
  rewrite Hsteps in Hsteps3; injection Hsteps3 as <-.
  congruence.
Qed.

Lemma frames_exact (n : nat) :
  forall w : Anim.Scene R,
    nonzero_masses (Anim.bodies w) -> scene_ok w ->
    trail_bounded TRAIL_LEN (Anim.bodies w) ->
    exists w',
      Anim.frames G EPS2 DT SUBSTEPS TRAIL_LEN n w = Ok w' /\
      sum_mv (Anim.bodies w') = sum_mv (Anim.bodies w) /\
      angular_momentum (Anim.bodies w') = angular_momentum (Anim.bodies w) /\
      (sum_mr (Anim.bodies w) = v_zero -> sum_mv (Anim.bodies w) = v_zero ->
       sum_mr (Anim.bodies w') = v_zero).
Proof.
  induction n as [|n IH]; intros w Hnz Hok Hb.
  - exists w; repeat split; auto.
  - destruct (update_exact Hnz Hok Hb) as (w1 & Hup & Hnz1 & Hok1 & Hb1 & Hp1 & HL1 & Hc1).
    destruct (IH w1 Hnz1 Hok1 Hb1) as (w' & Hrun & Hp & HL & Hc).
    exists w'; rewrite frames_S_first, Hup; cbn [bind].
    split; [exact Hrun|]; split; [congruence|]; split; [congruence|].
    intros Hr0 Hv0; apply Hc; [apply Hc1; assumption | congruence].
Qed.
End ExactFrames.

(** X15: in exact arithmetic the animation never fails and keeps the
    conservation laws frame after frame: with [EPS2 > 0] and non-zero
    masses, any number of [update] calls returns, leaves the total momentum
    and the total angular momentum as they were, and keeps the centre of
    mass at the origin if it was there at rest. *)
Theorem frames_conserve (G EPS2 DT : R) (SUBSTEPS TRAIL_LEN n : nat) (w : Anim.Scene R) :
  0 < EPS2 -> nonzero_masses (Anim.bodies w) -> scene_ok w ->
  trail_bounded TRAIL_LEN (Anim.bodies w) ->
  exists w',
    Anim.frames G EPS2 DT SUBSTEPS TRAIL_LEN n w = Ok w' /\
    sum_mv (Anim.bodies w') = sum_mv (Anim.bodies w) /\
    angular_momentum (Anim.bodies w') = angular_momentum (Anim.bodies w) /\
    (sum_mr (Anim.bodies w) = v_zero -> sum_mv (Anim.bodies w) = v_zero ->
     sum_mr (Anim.bodies w') = v_zero).
Proof. intros He; now apply frames_exact. Qed.

(** * The further properties at the scenarios of the two scripts *)

Lemma four_bodies_nonzero : nonzero_masses setup_four_bodies.
Proof. repeat constructor; simpl; lra. Defined.

Lemma four_bodies_mass : 0 < sum_m setup_four_bodies.
Proof. unfold sum_m; simpl; lra. Defined.

Lemma four_bodies_fresh : Forall (fun b : Body R => trail b = []) setup_four_bodies.
Proof. repeat constructor. Defined.

Lemma four_bodies_b64_fresh :
  Forall (fun b : Body binary64 => trail b = []) setup_four_bodies_b64.
Proof. repeat constructor. Defined.

Lemma accelerations_pair_count_witness :
  0 < EPS2_exact /\
  accelerations G_exact EPS2_exact setup_four_bodies
  = Ok (fold_left (apply_pair G_exact EPS2_exact) (pairs 4) (map reset_a setup_four_bodies)) /\
  List.length (pairs 4) = 6%nat.
Proof.
  split; [exact EPS2_exact_pos|].
  exact (accelerations_pair_count G_exact setup_four_bodies EPS2_exact_pos).
Defined.

Lemma com_moves_uniformly_witness :
  0 < EPS2_exact /\ nonzero_masses setup_four_bodies /\ 0 < sum_m setup_four_bodies /\
  (forall dt, exists bs',
     step_verlet G_exact EPS2_exact setup_four_bodies dt = Ok bs' /\
     sum_mr bs' = v_add (sum_mr setup_four_bodies) (v_scale dt (sum_mv setup_four_bodies))) /\
  exists bs0, to_com_frame setup_four_bodies = Ok bs0 /\
    forall dts, exists bsn,
      steps G_exact EPS2_exact dts bs0 = Ok bsn /\
      sum_mr bsn = v_zero /\ sum_mv bsn = v_zero.
Proof.
  split; [exact EPS2_exact_pos|].
  split; [exact four_bodies_nonzero|].
  split; [exact four_bodies_mass|].
  destruct (com_moves_uniformly G_exact EPS2_exact_pos four_bodies_nonzero)
    as [Hstep Hcom].
  split; [exact Hstep | exact (Hcom four_bodies_mass)].
Defined.

Lemma angular_momentum_conserved_witness :
  0 < EPS2_exact /\ nonzero_masses setup_four_bodies /\
  exists bs',
    steps G_exact EPS2_exact (repeat DT_exact SUBSTEPS_src) setup_four_bodies = Ok bs' /\
    angular_momentum bs' = angular_momentum setup_four_bodies.
Proof.
  split; [exact EPS2_exact_pos|].
  split; [exact four_bodies_nonzero|].
  exact (angular_momentum_conserved G_exact (repeat DT_exact SUBSTEPS_src)
           EPS2_exact_pos four_bodies_nonzero).
Defined.

Lemma update_records_witness :
  scene_ok (Anim.init_scene setup_four_bodies_b64) /\
  trail_bounded TRAIL_LEN_four (Anim.bodies (Anim.init_scene setup_four_bodies_b64)) /\
  exists w',
    Anim.update G_b64 EPS2_b64 DT_b64 SUBSTEPS_src TRAIL_LEN_four
      (Anim.init_scene setup_four_bodies_b64) = Ok w' /\
    Anim.scatters w' = map pos (Anim.bodies w') /\
    scene_ok w' /\
    Forall2 (fun b b' =>
               m b' = m b /\ color b' = color b /\
               trail b' = skipn (List.length (trail b) + 1 - TRAIL_LEN_four)
                            (trail b ++ [pos b']) /\
               List.length (trail b') = Nat.min (List.length (trail b) + 1) TRAIL_LEN_four)
      setup_four_bodies_b64 (Anim.bodies w').
Proof.
  destruct (init_scene_ok TRAIL_LEN_four four_bodies_b64_fresh) as [Hok Hb].
  split; [exact Hok|]; split; [exact Hb|].
  destruct (Anim.update G_b64 EPS2_b64 DT_b64 SUBSTEPS_src TRAIL_LEN_four
              (Anim.init_scene setup_four_bodies_b64)) as [w'|e] eqn:Hrun;
    [|vm_compute in Hrun; discriminate Hrun].
  exists w'; split; [reflexivity|].
  destruct (update_records G_b64 EPS2_b64 DT_b64 SUBSTEPS_src Hok Hb Hrun)
    as (bs1 & _ & _ & Hsc & _ & Hok' & Hrel).
  split; [exact Hsc|]; split; [exact Hok'|exact Hrel].
Defined.

Lemma frames_trail_length_witness :
  scene_ok (Anim.init_scene two_body_b64) /\
  trail_bounded 2 (Anim.bodies (Anim.init_scene two_body_b64)) /\
  exists w',
    Anim.frames G_b64 EPS2_b64 DT_b64 SUBSTEPS_src 2 3 (Anim.init_scene two_body_b64)
    = Ok w' /\
    map (fun b => List.length (trail b)) (Anim.bodies w') = [2%nat; 2%nat] /\
    trail_bounded 2 (Anim.bodies w') /\
    Forall (fun b' => exists t, trail b' = t ++ [pos b']) (Anim.bodies w').
Proof.
  assert (Hfresh : Forall (fun b : Body binary64 => trail b = []) two_body_b64)
    by (repeat constructor).
  destruct (init_scene_ok 2 Hfresh) as [Hok Hb].
  split; [exact Hok|]; split; [exact Hb|].
  destruct (Anim.frames G_b64 EPS2_b64 DT_b64 SUBSTEPS_src 2 3
              (Anim.init_scene two_body_b64)) as [w'|e] eqn:Hrun;
    [|vm_compute in Hrun; discriminate Hrun].
  exists w'; split; [reflexivity|].
  destruct (frames_trail_length G_b64 EPS2_b64 DT_b64 SUBSTEPS_src 3 Hok Hb Hrun)
    as (Hlen & Hb' & Hlast).
  split; [exact Hlen|]; split; [exact Hb'|].
  apply Hlast; lia.
Defined.

Lemma lines_follow_trails_witness :
  Forall (fun b : Body binary64 => trail b = []) two_body_b64 /\
  exists w',
    Anim.frames G_b64 EPS2_b64 DT_b64 SUBSTEPS_src TRAIL_LEN_two 2
      (Anim.init_scene two_body_b64) = Ok w' /\
    Anim.lines w' = map (fun b' => split (trail b')) (Anim.bodies w') /\
    Forall (fun l => List.length (fst l) = 2%nat /\ List.length (snd l) = 2%nat)
      (Anim.lines w').
Proof.
  assert (Hfresh : Forall (fun b : Body binary64 => trail b = []) two_body_b64)
    by (repeat constructor).
  split; [exact Hfresh|].
  destruct (Anim.frames G_b64 EPS2_b64 DT_b64 SUBSTEPS_src TRAIL_LEN_two 2
              (Anim.init_scene two_body_b64)) as [w'|e] eqn:Hrun;
    [|vm_compute in Hrun; discriminate Hrun].
  exists w'; split; [reflexivity|].
  destruct (lines_follow_trails G_b64 EPS2_b64 DT_b64 SUBSTEPS_src TRAIL_LEN_two 2
              Hfresh Hrun) as [_ Hdrawn].
  apply Hdrawn; unfold TRAIL_LEN_two; lia.
Defined.

Lemma frames_conserve_witness :
  0 < EPS2_exact /\
  nonzero_masses (Anim.bodies (Anim.init_scene setup_four_bodies)) /\
  scene_ok (Anim.init_scene setup_four_bodies) /\
  trail_bounded TRAIL_LEN_four (Anim.bodies (Anim.init_scene setup_four_bodies)) /\
  exists w',
    Anim.frames G_exact EPS2_exact DT_exact SUBSTEPS_src TRAIL_LEN_four 600
      (Anim.init_scene setup_four_bodies) = Ok w' /\
    sum_mv (Anim.bodies w') = sum_mv setup_four_bodies /\
    angular_momentum (Anim.bodies w') = angular_momentum setup_four_bodies.
Proof.
  destruct (init_scene_ok TRAIL_LEN_four four_bodies_fresh) as [Hok Hb].
  split; [exact EPS2_exact_pos|].
  split; [exact four_bodies_nonzero|].
  split; [exact Hok|]; split; [exact Hb|].
  destruct (@frames_conserve G_exact EPS2_exact DT_exact SUBSTEPS_src TRAIL_LEN_four 600
              (Anim.init_scene setup_four_bodies)
              EPS2_exact_pos four_bodies_nonzero Hok Hb)
    as (w' & Hrun & Hp & Hl & _).
  exists w'; split; [exact Hrun|]; split; [exact Hp | exact Hl].
Defined.
